(** * Fibonacci alerts dashboard: line management and alert evaluation

    A shallow embedding of the chart component ([AssetChart], in
    [src/App.js]) and of the dashboard store ([Dashboard]), with the
    properties of the price-level resolver, the hydration step, the
    drag snapping, the alert evaluator, the alert log and the indicator
    transforms.

    Numbers.  A JavaScript number is modelled as an exact rational
    extended with the three IEEE special values [+Infinity], [-Infinity]
    and [NaN].  Rounding, overflow and the sign of zero are not
    modelled: finite arithmetic is exact.  [null] and [undefined] are
    the [None] of an option type. *)

From Stdlib Require Import QArith Qcanon Qround.
From stdpp Require Import base numbers list strings gmap.

Open Scope Qc_scope.

(** ** JavaScript numbers *)

Module Js.

Inductive num : Type :=
  | Fin (q : Qc)
  | PosInf
  | NegInf
  | NaN.

Definition ofQ (q : Q) : num := Fin (Q2Qc q).
Definition ofZ (z : Z) : num := Fin (Q2Qc (inject_Z z)).
Definition ofnat (n : nat) : num := ofZ (Z.of_nat n).

(** [Number.isFinite] *)
Definition isFinite (x : num) : bool :=
  match x with Fin _ => true | _ => false end.

Definition neg (x : num) : num :=
  match x with
  | Fin q => Fin (- q)
  | PosInf => NegInf
  | NegInf => PosInf
  | NaN => NaN
  end.

(** [x + y] *)
Definition add (x y : num) : num :=
  match x, y with
  | NaN, _ | _, NaN => NaN
  | Fin a, Fin b => Fin (a + b)
  | PosInf, NegInf | NegInf, PosInf => NaN
  | PosInf, _ | _, PosInf => PosInf
  | NegInf, _ | _, NegInf => NegInf
  end.

(** [x - y] *)
Definition sub (x y : num) : num := add x (neg y).

(** an infinity of the sign given by comparing a rational with zero,
    [NaN] for zero *)
Definition inf_of_sign (c : comparison) : num :=
  match c with Gt => PosInf | Lt => NegInf | Eq => NaN end.

(** [x * y] *)
Definition mul (x y : num) : num :=
  match x, y with
  | NaN, _ | _, NaN => NaN
  | Fin a, Fin b => Fin (a * b)
  | PosInf, Fin b | Fin b, PosInf => inf_of_sign (b ?= 0)
  | NegInf, Fin b | Fin b, NegInf => inf_of_sign (0 ?= b)
  | PosInf, PosInf | NegInf, NegInf => PosInf
  | PosInf, NegInf | NegInf, PosInf => NegInf
  end.

(** [x / y]; a zero divisor counts as [+0] *)
Definition div (x y : num) : num :=
  match x, y with
  | NaN, _ | _, NaN => NaN
  | Fin a, Fin b =>
      match b ?= 0 with
      | Eq => inf_of_sign (a ?= 0)
      | _ => Fin (a / b)
      end
  | Fin _, _ => Fin 0
  | PosInf, Fin b => match b ?= 0 with Lt => NegInf | _ => PosInf end
  | NegInf, Fin b => match b ?= 0 with Lt => PosInf | _ => NegInf end
  | _, _ => NaN
  end.

(** [Math.abs] *)
Definition abs (x : num) : num :=
  match x with
  | Fin q => Fin (match q ?= 0 with Lt => - q | _ => q end)
  | PosInf | NegInf => PosInf
  | NaN => NaN
  end.

(** [Math.floor] *)
Definition floor (x : num) : num :=
  match x with
  | Fin q => ofZ (Qfloor q)
  | _ => x
  end.

(** [x < y]; every comparison with [NaN] is false *)
Definition lt (x y : num) : bool :=
  match x, y with
  | NaN, _ | _, NaN => false
  | Fin a, Fin b => match a ?= b with Lt => true | _ => false end
  | _, NegInf => false
  | NegInf, _ => true
  | PosInf, _ => false
  | _, PosInf => true
  end.

(** [x === y] on numbers *)
Definition eq (x y : num) : bool :=
  match x, y with
  | Fin a, Fin b => match a ?= b with Eq => true | _ => false end
  | PosInf, PosInf | NegInf, NegInf => true
  | _, _ => false
  end.

(** [x <= y], [x > y], [x >= y] *)
Definition le (x y : num) : bool := lt x y || eq x y.
Definition gt (x y : num) : bool := lt y x.
Definition ge (x y : num) : bool := le y x.

Definition max2 (x y : num) : num :=
  match x, y with
  | NaN, _ | _, NaN => NaN
  | _, _ => if lt x y then y else x
  end.

Definition min2 (x y : num) : num :=
  match x, y with
  | NaN, _ | _, NaN => NaN
  | _, _ => if lt y x then y else x
  end.

(** [Math.max(...xs)] and [Math.min(...xs)]: [-Infinity] and
    [+Infinity] on no argument, [NaN] as soon as one argument is *)
Definition Math_max (xs : list num) : num := foldr max2 NegInf xs.
Definition Math_min (xs : list num) : num := foldr min2 PosInf xs.

(** [x === y] on [number | null] *)
Definition eq_opt (x y : option num) : bool :=
  match x, y with
  | Some a, Some b => eq a b
  | None, None => true
  | _, _ => false
  end.

(** [ToNumber] on [number | null]: [null] is [0] *)
Definition toNumber (x : option num) : num :=
  match x with Some a => a | None => Fin 0 end.

End Js.

Import Js.

Declare Scope js_scope.
Delimit Scope js_scope with js.
Bind Scope js_scope with num.
Infix "+" := Js.add : js_scope.
Infix "-" := Js.sub : js_scope.
Infix "*" := Js.mul : js_scope.
Infix "/" := Js.div : js_scope.

(** ** Data model *)

(** [Bar]: [{time, open, high, low, close, volume}] *)
Record Bar : Type := mkBar {
  time : num;
  open : num;
  high : num;
  low : num;
  close : num;
  volume : num
}.

(** a point of a line series: [{time, value}]; its [time] field is named
    [ptime] here, [time] being the field of [Bar] *)
Record Point : Type := mkPoint {
  ptime : num;
  value : num
}.

(** [FibLevel]; [price = None] is the JavaScript [null] *)
Record FibLevel : Type := mkFibLevel {
  id : string;
  symbol : string;
  ratio : num;
  price : option num;
  enabled : bool;
  alertEnabled : bool;
  rsiThreshold : num;
  rsiOp : string;
  color : string
}.

(** [{ ...ln, price: p }] *)
Definition with_price (ln : FibLevel) (p : option num) : FibLevel :=
  mkFibLevel (id ln) (symbol ln) (ratio ln) p (enabled ln) (alertEnabled ln)
             (rsiThreshold ln) (rsiOp ln) (color ln).

(** ** Indicator engine *)

(** One iteration of the loop of [toHeikinAshi]: [out] holds the
    [i] transformed bars pushed so far, [b] is [bars[i]]. *)
Definition ha_push (out : list Bar) (b : Bar) : list Bar :=
  let i := length out in
  let c := ((open b + high b + low b + close b) / ofZ 4)%js in
  if Nat.eqb i 0 then
    let o := ((open b + close b) / ofZ 2)%js in
    out ++ [mkBar (time b) o (Math_max [high b; o; c]) (Math_min [low b; o; c])
                  c (volume b)]
  else
    match out !! (i - 1)%nat with
    | Some prev =>
        let o := ((open prev + close prev) / ofZ 2)%js in
        out ++ [mkBar (time b) o (Math_max [high b; o; c])
                      (Math_min [low b; o; c]) c (volume b)]
    | None => out
    end.

Definition toHeikinAshi (bars : list Bar) : list Bar :=
  foldl ha_push [] bars.

(** [getLinePrice(ln, range, lo, last)].  A [FibLevel] always carries a
    ratio, so the guards [ln &&] and [ln.ratio != null] of the source
    hold and [Number(ln.ratio)] is the ratio. *)
Definition getLinePrice (ln : FibLevel) (range lo : option num)
    (last : option Bar) : option num :=
  match price ln with
  | Some p => Some p
  | None =>
      match range, lo with
      | Some rg, Some l => Some (l + ratio ln * rg)%js
      | _, _ =>
          match last with
          | Some b => Some (close b)
          | None => None
          end
      end
  end.

(** [arr[k].value] for a computed index [k]; the loop of [sma] reads it
    only for an integer [0 <= k < i] (under [i >= w], with [w] an
    integer above 1), so the out-of-range default is never used. *)
Definition index_of (k : num) : option nat :=
  match k with
  | Fin q =>
      if Js.eq (ofZ (Qfloor q)) k && Js.le (ofZ 0) k
      then Some (Z.to_nat (Qfloor q)) else None
  | _ => None
  end.

Definition value_at (arr : list Point) (k : num) : num :=
  match index_of k with
  | Some n => match arr !! n with Some x => value x | None => NaN end
  | None => NaN
  end.

(** The loop of [sma]: [rest] is the part of [arr] from index [i] on,
    [sum] the running sum on entry of iteration [i]. *)
Fixpoint sma_loop (arr : list Point) (w : num) (rest : list Point)
    (i : nat) (sum : num) : list Point :=
  match rest with
  | [] => []
  | x :: rest' =>
      let sum1 := (sum + value x)%js in
      let sum2 := if Js.ge (ofnat i) w
                  then (sum1 - value_at arr (ofnat i - w))%js else sum1 in
      let y := if Js.ge (ofnat i) (w - ofZ 1)%js
               then mkPoint (ptime x) (sum2 / w)%js
               else mkPoint (ptime x) (value x) in
      y :: sma_loop arr w rest' (S i) sum2
  end.

(** [sma(arr, window)] *)
Definition sma_w (window : num) : num := Math_max [ofZ 1; Js.floor window].

Definition sma (arr : list Point) (window : num) : list Point :=
  let w := sma_w window in
  if Js.le w (ofZ 1) then arr
  else sma_loop arr w arr 0 (ofZ 0).

(** ** Rolling window (the lines-and-drag effect of [AssetChart]) *)

Definition window_last (bars : list Bar) : option Bar := last bars.

(** [bars.slice(-120)] *)
Definition window_look (bars : list Bar) : list Bar :=
  drop (length bars - 120) bars.

Definition window_hi (bars : list Bar) : option num :=
  let look := window_look bars in
  if Nat.eqb (length look) 0 then None else Some (Math_max (map high look)).

Definition window_lo (bars : list Bar) : option num :=
  let look := window_look bars in
  if Nat.eqb (length look) 0 then None else Some (Math_min (map low look)).

Definition window_range (bars : list Bar) : option num :=
  match window_hi bars, window_lo bars with
  | Some hi, Some lo => Some (hi - lo)%js
  | _, _ => None
  end.

(** the resolver on the window of a bar buffer *)
Definition resolve (ln : FibLevel) (bars : list Bar) : option num :=
  getLinePrice ln (window_range bars) (window_lo bars) (window_last bars).

(** ** Snap candidates *)

Inductive SnapType : Type :=
  | SnapRatio (r : num)
  | SnapHigh
  | SnapLow.

(** [{type, price}]; [stype = None] is the [type: null] of the fallback *)
Record Snap : Type := mkSnap {
  stype : option SnapType;
  sprice : num
}.

Definition ratios : list num :=
  [ofQ (-1); ofQ (-618 # 1000); ofQ (-272 # 1000); ofQ (236 # 1000);
   ofQ (382 # 1000); ofQ (5 # 10); ofQ (618 # 1000); ofQ (786 # 1000);
   ofQ (1272 # 1000); ofQ (1618 # 1000); ofQ 2].

Definition snaps (bars : list Bar) : list Snap :=
  (match window_range bars, window_lo bars with
   | Some rg, Some lo =>
       map (fun r => mkSnap (Some (SnapRatio r)) (lo + r * rg)%js) ratios
   | _, _ => []
   end)
  ++ flat_map (fun b => [mkSnap (Some SnapHigh) (high b);
                         mkSnap (Some SnapLow) (low b)])
              (window_look bars).

(** the loop of [nearestSnap] over the candidates [cands]: the state is
    [(best, dmin)] *)
Definition nearest_step (p : num) (acc : option Snap * num) (s : Snap)
    : option Snap * num :=
  let d := Js.abs (sprice s - p)%js in
  if Js.lt d (snd acc) then (Some s, d) else acc.

Definition nearestSnap (cands : list Snap) (p : num) : Snap :=
  match fst (foldl (nearest_step p) (None, PosInf) cands) with
  | Some s => s
  | None => mkSnap None p
  end.

(** ** Hydration of missing prices *)

Definition hydrate_line (range lo : option num) (last : option Bar)
    (ln : FibLevel) : FibLevel :=
  match price ln with
  | None =>
      match getLinePrice ln range lo last with
      | Some p => if isFinite p then with_price ln (Some p) else ln
      | None => ln
      end
  | Some _ => ln
  end.

Definition filled (fibLines : list FibLevel) (bars : list Bar)
    : list FibLevel :=
  map (hydrate_line (window_range bars) (window_lo bars) (window_last bars))
      fibLines.

(** [filled.some((ln, i) => ln.price !== fibLines[i].price)]; [filled]
    is as long as [fibLines], so [fibLines[i]] is always defined *)
Definition changed (fibLines fl : list FibLevel) : bool :=
  existsb (fun b : bool => b)
    (imap (fun i ln =>
             match fibLines !! i with
             | Some old => negb (eq_opt (price ln) (price old))
             | None => false
             end) fl).

(** The hydration step of one run of the effect: the calls
    [onFibLinesUpdate(symbol, filled)] it makes.  The callback is the
    [updateFibLines] of the dashboard, so the test that it is a function
    holds. *)
Definition hydrate (sym : string) (fibLines : list FibLevel)
    (bars : list Bar) : list (string * list FibLevel) :=
  if negb (Nat.eqb (length fibLines) 0)
     && (bool_decide (is_Some (window_range bars))
         || bool_decide (is_Some (window_last bars)))
  then
    let fl := filled fibLines bars in
    if changed fibLines fl then [(sym, fl)] else []
  else [].

(** ** Drag update *)

(** [draggingRef.current]: [{active, id}] *)
Record Dragging : Type := mkDragging {
  active : bool;
  drag_id : option string
}.

Definition is_id (i : option string) (ln : FibLevel) : bool :=
  match i with
  | Some s => String.eqb (id ln) s
  | None => false
  end.

(** [onShieldMove]: [raw] is [yToPrice(y)]; the result is the calls
    [onFibLinesUpdate(symbol, moved)] it makes *)
Definition onShieldMove (sym : string) (dragging : Dragging)
    (fibLines : list FibLevel) (bars : list Bar) (raw : option num)
    : list (string * list FibLevel) :=
  if negb (active dragging) then []
  else
    match List.find (is_id (drag_id dragging)) fibLines with
    | None => []
    | Some _ =>
        match raw with
        | None => []
        | Some p =>
            let snap := nearestSnap (snaps bars) p in
            [(sym, map (fun l => if is_id (drag_id dragging) l
                                 then with_price l (Some (sprice snap))
                                 else l) fibLines)]
        end
    end.

(** ** Chart state and the data feed *)

(** The [useState] cells of [AssetChart] that the alert effect reads. *)
Record ChartState : Type := mkChartState {
  bars : list Bar;
  lastPrice : option num;
  rsi : option num;
  haRsi : option num
}.

Definition initialState : ChartState := mkChartState [] None None None.

(** [r && r.length ? r[r.length - 1] : null] *)
Definition last_or_null (r : list num) : option num := last r.

(** The body of the [setBars] updater of [ws.onmessage]: a bar of the
    time bucket of the last bar replaces it, any other bar is pushed. *)
Definition upsert (prev : list Bar) (bar : Bar) : list Bar :=
  match last prev with
  | Some l =>
      if Js.eq (time l) (time bar)
      then <[(length prev - 1)%nat := bar]> prev
      else prev ++ [bar]
  | None => prev ++ [bar]
  end.

(** [ws.onmessage] on a kline message carrying [bar].  [rsiCalc] is
    [RSI.calculate] of the indicator library, at period 14. *)
Definition onmessage (rsiCalc : list num -> list num) (st : ChartState)
    (bar : Bar) : ChartState :=
  let p := upsert (bars st) bar in
  mkChartState p (Some (close bar))
    (last_or_null (rsiCalc (map close p)))
    (last_or_null (rsiCalc (map close (toHeikinAshi p)))).

(** [load]: the historical fetch answered with the bars [b] *)
Definition onload (rsiCalc : list num -> list num) (st : ChartState)
    (b : list Bar) : ChartState :=
  mkChartState b
    (match last b with Some x => Some (close x) | None => lastPrice st end)
    (last_or_null (rsiCalc (map close b)))
    (last_or_null (rsiCalc (map close (toHeikinAshi b)))).

(** ** Alert evaluator *)

(** The values interpolated into the alert message, in the order of the
    template; the rendering of the numbers to text ([toFixed]) is left
    out. *)
Record Message : Type := mkMessage {
  m_symbol : string;
  m_timeframe : string;
  m_ratio : num;
  m_price : num;
  m_ha : bool;
  m_rsi : num
}.

(** [rsiVal || 0] *)
Definition or_zero (x : num) : num :=
  match x with
  | NaN => ofZ 0
  | _ => if Js.eq x (ofZ 0) then ofZ 0 else x
  end.

(** [bars.length > 1 ? bars[bars.length - 2].close : null] *)
Definition prevClose (bs : list Bar) : option num :=
  if Nat.ltb 1 (length bs)
  then match bs !! (length bs - 2)%nat with
       | Some b => Some (close b)
       | None => None
       end
  else None.

(** [prevClose != null ? prevClose < ln.price : null] *)
Definition wasBelow (prev : option num) (level : num) : option bool :=
  match prev with
  | Some c => Some (Js.lt c level)
  | None => None
  end.

(** [price < ln.price], with [price] the [lastPrice] cell *)
Definition isBelow (cur : option num) (level : num) : bool :=
  Js.lt (toNumber cur) level.

(** [wasBelow != null && wasBelow !== isBelow] *)
Definition crossed (prev cur : option num) (level : num) : bool :=
  match wasBelow prev level with
  | Some wb => negb (Bool.eqb wb (isBelow cur level))
  | None => false
  end.

(** the RSI gate: [op === ">=" ? rsiVal >= thr : rsiVal <= thr] with
    [op = ln.rsiOp || ">="] *)
Definition rsi_gate (op : string) (rsiVal thr : num) : bool :=
  let op := if String.eqb op "" then ">="%string else op in
  if String.eqb op ">=" then Js.ge rsiVal thr else Js.le rsiVal thr.

(** The body of the [forEach] of the alert effect on the level [ln]:
    the message it hands to the delivery, if any. *)
Definition level_alert (sym timeframe : string) (useHaRsi : bool)
    (cur rsiVal prev : option num) (ln : FibLevel) : option Message :=
  if negb (enabled ln) || negb (bool_decide (is_Some (price ln)))
     || negb (alertEnabled ln)
  then None
  else
    match price ln, rsiVal with
    | Some lp, Some r =>
        if negb (isFinite (rsiThreshold ln)) then None
        else if negb (crossed prev cur lp) then None
        else if negb (rsi_gate (rsiOp ln) r (rsiThreshold ln)) then None
        else Some (mkMessage sym timeframe (ratio ln) lp useHaRsi (or_zero r))
    | _, _ => None
    end.

(** One run of the alert effect: the messages of the alerts it emits,
    in the order of the levels. *)
Definition alertEffect (sym timeframe : string) (useHaRsi : bool)
    (fibLines : list FibLevel) (st : ChartState) : list Message :=
  if Nat.eqb (length (bars st)) 0 || Nat.eqb (length fibLines) 0 then []
  else
    let cur := lastPrice st in
    let rsiVal := if useHaRsi then haRsi st else rsi st in
    let prev := prevClose (bars st) in
    omap (level_alert sym timeframe useHaRsi cur rsiVal prev) fibLines.

(** A live tick: the message handler replaces the [bars] array by a
    fresh one, so the dependencies [lastPrice, bars] of the alert effect
    always differ and the effect runs once after the update. *)
Definition tick (rsiCalc : list num -> list num) (sym timeframe : string)
    (useHaRsi : bool) (fibLines : list FibLevel) (st : ChartState)
    (bar : Bar) : ChartState * list Message :=
  let st' := onmessage rsiCalc st bar in
  (st', alertEffect sym timeframe useHaRsi fibLines st').

(** A sequence of live ticks: the final state and the alerts of every
    tick, in order. *)
Fixpoint run_ticks (rsiCalc : list num -> list num) (sym timeframe : string)
    (useHaRsi : bool) (fibLines : list FibLevel) (st : ChartState)
    (feed : list Bar) : ChartState * list (list Message) :=
  match feed with
  | [] => (st, [])
  | bar :: feed' =>
      let '(st1, out) := tick rsiCalc sym timeframe useHaRsi fibLines st bar in
      let '(st2, outs) :=
        run_ticks rsiCalc sym timeframe useHaRsi fibLines st1 feed' in
      (st2, out :: outs)
  end.

(** ** Alert delivery and the alert log *)

(** [{ts, message, delivered}] *)
Record AlertEvent : Type := mkAlertEvent {
  ts : num;
  message : Message;
  delivered : bool
}.

(** What the [fetch] of the POST to [/alert] does: it resolves with a
    response ([ok] is [res.ok], [json_ok] tells whether [res.json()]
    resolves) or it rejects. *)
Inductive FetchOutcome : Type :=
  | Resolved (ok : bool) (json_ok : bool)
  | Rejected.

(** the [delivered] flag after the [try]/[catch] around the [fetch] *)
Definition delivery_flag (r : FetchOutcome) : bool :=
  match r with
  | Resolved ok _ => ok
  | Rejected => false
  end.

(** [pushAlert] of the dashboard, on the [alerts] cell:
    [[{ ...a }, ...prev].slice(0, 200)] *)
Definition pushAlert (a : AlertEvent) (prev : list AlertEvent)
    : list AlertEvent :=
  take 200 (a :: prev).

(** The asynchronous delivery of one alert, once the fetch has settled
    with [r] at the time [now]: [onAlert], when it is a function, is
    called with the event. *)
Definition deliver {S : Type} (onAlert : option (AlertEvent -> S -> S))
    (now : num) (msg : Message) (r : FetchOutcome) (s : S) : S :=
  match onAlert with
  | Some f => f (mkAlertEvent now msg (delivery_flag r)) s
  | None => s
  end.

(** the [onAlert] prop the dashboard passes: [(a) => pushAlert(a)] *)
Definition dashboard_onAlert : option (AlertEvent -> list AlertEvent -> list AlertEvent) :=
  Some pushAlert.

(** the alert log after the alerts [evs] were pushed one after the
    other, the first of [evs] first *)
Definition push_all (evs : list AlertEvent) (log : list AlertEvent)
    : list AlertEvent :=
  foldl (fun l a => pushAlert a l) log evs.

(** ** Dashboard store *)

(** [updateFibLines(symbol, nextLines)] on the [perSymFib] cell.  Every
    level carries a colour, so [{ color: DEFAULT_COLOR, ...ln }] is
    [ln]. *)
Definition updateFibLines (sym : string) (nextLines : list FibLevel)
    (perSymFib : gmap string (list FibLevel)) : gmap string (list FibLevel) :=
  <[sym := nextLines]> perSymFib.

(** the store after the calls to [onFibLinesUpdate] of one effect run *)
Definition apply_updates (calls : list (string * list FibLevel))
    (perSymFib : gmap string (list FibLevel)) : gmap string (list FibLevel) :=
  foldl (fun m c => updateFibLines (fst c) (snd c) m) perSymFib calls.

(** ** Predicates of the statements *)

(** the transformed bar at index [i], as the transform defines it *)
Definition ha_at (bars : list Bar) (i : nat) (b h : Bar) : Prop :=
  time h = time b /\ volume h = volume b
  /\ close h = ((open b + high b + low b + close b) / ofZ 4)%js
  /\ match i with
     | O => open h = ((open b + close b) / ofZ 2)%js
     | S j => exists prev, toHeikinAshi bars !! j = Some prev
                /\ open h = ((open prev + close prev) / ofZ 2)%js
     end
  /\ high h = Math_max [high b; open h; close h]
  /\ low h = Math_min [low b; open h; close h].

(** the sum of a list of numbers, and the exact sum of rationals *)
Definition js_sum (xs : list num) : num := foldr Js.add (ofZ 0) xs.

Definition qsum (xs : list Qc) : Qc := foldr Qcplus 0 xs.

(** the rational a finite number stands for *)
Definition fin_val (x : num) : Qc := match x with Fin q => q | _ => 0 end.

Definition qv (x : Point) : Qc := fin_val (value x).

(** a series without [NaN] or infinite value *)
Definition finite_values (arr : list Point) : Prop :=
  Forall (fun x => isFinite (value x) = true) arr.

(** the [W] most recent points at index [i] *)
Definition recent (W i : nat) (arr : list Point) : list Point :=
  take W (drop (S i - W) arr).

(** the point the loop of [sma] pushes at index [k], the running sum
    written as the sum it stands for *)
Definition sma_point (arr : list Point) (W k : nat) (x : Point) : Point :=
  if decide (W - 1 <= k)%nat
  then mkPoint (ptime x)
         (Fin (qsum (map qv (drop (S k - W) (take (S k) arr)))) / ofnat W)%js
  else mkPoint (ptime x) (value x).

(** a stored price is a number or null, never [NaN] *)
Definition stored_price_ok (ln : FibLevel) : Prop := price ln <> Some NaN.

(** the distance of a candidate to the raw price, as [nearestSnap]
    computes it *)
Definition dist (p : num) (s : Snap) : num := Js.abs (sprice s - p)%js.

(** candidates, and bars, of finite prices *)
Definition finite_snap (s : Snap) : Prop := isFinite (sprice s) = true.

Definition finite_bar (b : Bar) : Prop :=
  isFinite (high b) = true /\ isFinite (low b) = true.

(** where the loop of [nearestSnap] stands after the candidates [seen] *)
Definition nearest_inv (p : num) (seen : list Snap)
    (acc : option Snap * num) : Prop :=
  match fst acc with
  | None => seen = [] /\ snd acc = PosInf
  | Some s =>
      s ∈ seen /\ snd acc = dist p s
      /\ forall s' : Snap, s' ∈ seen -> Js.le (dist p s) (dist p s') = true
  end.

(** ** Example data *)

(** a level at price 109 with an alert under RSI >= 60 *)
Definition ex_level : FibLevel :=
  mkFibLevel "X-fib-0_5" "X" (ofQ (1 # 2)) (Some (ofZ 109)) true true (ofZ 60)
             ">=" "#ffffff".

(** a bar of the time bucket [t] that closes at [c] *)
Definition ex_bar (t c : Z) : Bar :=
  mkBar (ofZ t) (ofZ c) (ofZ c) (ofZ c) (ofZ c) (ofZ 1).

(** an indicator library that answers the single value [v] *)
Definition ex_rsi (v : Z) : list num -> list num := fun _ => [ofZ v].

Definition ex_event : AlertEvent :=
  mkAlertEvent (ofZ 0)
    (mkMessage "X" "1m" (ofQ (1 # 2)) (ofZ 109) false (ofZ 65)) true.

(** a chart state on the closes 110 and 108 with an RSI of 65 *)
Definition ex_state : ChartState :=
  mkChartState [ex_bar 1 110; ex_bar 2 108] (Some (ofZ 108)) (Some (ofZ 65))
               (Some (ofZ 65)).

(** ** Further indicators *)

(** the [typical] price of a bar in [computeVWAP] *)
Definition typical (b : Bar) : num := ((high b + low b + close b) / ofZ 3)%js.

(** The loop of [computeVWAP]: [cumPV] and [cumVol] are the running sums
    on entry; [b.volume || 0] is [or_zero]. *)
Fixpoint vwap_loop (rest : list Bar) (cumPV cumVol : num) : list Point :=
  match rest with
  | [] => []
  | b :: rest' =>
      let tp := typical b in
      let vol := or_zero (volume b) in
      let cumPV' := (cumPV + tp * vol)%js in
      let cumVol' := (cumVol + vol)%js in
      let vwap := if Js.gt cumVol' (ofZ 0) then (cumPV' / cumVol')%js else tp in
      mkPoint (time b) vwap :: vwap_loop rest' cumPV' cumVol'
  end.

(** [computeVWAP(bars)] *)
Definition computeVWAP (bars : list Bar) : list Point :=
  vwap_loop bars (ofZ 0) (ofZ 0).

(** The loop of [computeEMA] from index 1 on: [emaPrev] is the value
    pushed last. *)
Fixpoint ema_loop (k : num) (rest : list Bar) (emaPrev : num) : list Point :=
  match rest with
  | [] => []
  | b :: rest' =>
      let ema := (close b * k + emaPrev * (ofZ 1 - k))%js in
      mkPoint (time b) ema :: ema_loop k rest' ema
  end.

(** [computeEMA(bars, period)] *)
Definition computeEMA (bars : list Bar) (period : num) : list Point :=
  match bars with
  | [] => []
  | b0 :: rest =>
      if Js.le period (ofZ 0) then []
      else
        let k := (ofZ 2 / (period + ofZ 1))%js in
        mkPoint (time b0) (close b0) :: ema_loop k rest (close b0)
  end.

(** a finite number between two rationals *)
Definition in_range (lo hi : Qc) (x : num) : Prop :=
  exists q : Qc, x = Fin q /\ lo <= q /\ q <= hi.

(** a bar of finite open, high, low and close *)
Definition finite_ohlc (b : Bar) : Prop :=
  isFinite (open b) = true /\ isFinite (high b) = true
  /\ isFinite (low b) = true /\ isFinite (close b) = true.

(** a candle whose body lies between its low and its high *)
Definition well_formed_candle (h : Bar) : Prop :=
  Js.le (low h) (open h) = true /\ Js.le (open h) (high h) = true
  /\ Js.le (low h) (close h) = true /\ Js.le (close h) (high h) = true.

(** ** Feed events *)

(** what the data feed delivers: the answer of the historical fetch, or
    a live kline message *)
Inductive FeedEvent : Type :=
  | Loaded (b : list Bar)
  | Live (bar : Bar).

Definition feed_step (rsiCalc : list num -> list num) (st : ChartState)
    (ev : FeedEvent) : ChartState :=
  match ev with
  | Loaded b => onload rsiCalc st b
  | Live bar => onmessage rsiCalc st bar
  end.

Definition run_feed (rsiCalc : list num -> list num) (st : ChartState)
    (evs : list FeedEvent) : ChartState :=
  foldl (feed_step rsiCalc) st evs.

(** bars ordered by strictly ascending time *)
Definition ascending_times (bs : list Bar) : Prop :=
  forall (i : nat) (a b : Bar),
    bs !! i = Some a -> bs !! S i = Some b -> Js.lt (time a) (time b) = true.

(** the last price is the close of the last bar of a non-empty buffer *)
Definition price_in_sync (st : ChartState) : Prop :=
  forall l : Bar, last (bars st) = Some l -> lastPrice st = Some (close l).

(** ** Hit test and drag state *)

(** the pointer event, [{clientX, clientY}], and the bounding rectangle of
    the container, [{right, top}] *)
Record MouseEvent : Type := mkMouseEvent {
  clientX : num;
  clientY : num
}.

Record Rect : Type := mkRect {
  rect_right : num;
  rect_top : num
}.

Definition HIT_RIGHT_WIDTH : num := ofZ 64.
Definition HIT_TOL_Y : num := ofZ 12.

(** [price != null ? priceToY(price) : null], for the price the resolver
    gives the level; [priceToY] is the mapping of the chart library,
    null when it throws *)
Definition line_y (priceToY : num -> option num) (bs : list Bar)
    (ln : FibLevel) : option num :=
  match resolve ln bs with
  | Some p => priceToY p
  | None => None
  end.

(** [dy] of a level in [hitTestLineByMouse], for a coordinate [yy] *)
Definition hit_dy (e : MouseEvent) (rect : Rect) (yy : num) : num :=
  Js.abs ((clientY e - rect_top rect) - yy)%js.

(** The body of the [forEach] of [hitTestLineByMouse]; the state is
    [(target, bestDy)]. *)
Definition hit_step (priceToY : num -> option num) (bs : list Bar)
    (e : MouseEvent) (rect : Rect) (acc : option FibLevel * num)
    (ln : FibLevel) : option FibLevel * num :=
  if negb (enabled ln) then acc
  else
    match line_y priceToY bs ln with
    | Some yy =>
        if negb (isFinite yy) then acc
        else
          let dy := hit_dy e rect yy in
          if Js.lt dy (snd acc) then (Some ln, dy) else acc
    | None => acc
    end.

(** [hitTestLineByMouse(e)] *)
Definition hitTestLineByMouse (priceToY : num -> option num)
    (fibLines : list FibLevel) (bs : list Bar) (e : MouseEvent) (rect : Rect)
    : option FibLevel :=
  if negb (Js.ge (clientX e) (rect_right rect - HIT_RIGHT_WIDTH)%js) then None
  else
    let acc := foldl (hit_step priceToY bs e rect) (None, PosInf) fibLines in
    if Js.le (snd acc) HIT_TOL_Y then fst acc else None.

(** [onMouseDown]: the drag state after the event *)
Definition onMouseDown (priceToY : num -> option num)
    (fibLines : list FibLevel) (bs : list Bar) (e : MouseEvent) (rect : Rect)
    (dragging : Dragging) : Dragging :=
  match hitTestLineByMouse priceToY fibLines bs e rect with
  | Some target => mkDragging true (Some (id target))
  | None => dragging
  end.

(** [onShieldUp]: the drag state after the event *)
Definition onShieldUp (dragging : Dragging) : Dragging :=
  if negb (active dragging) then dragging else mkDragging false None.

(** where the loop of [hitTestLineByMouse] stands after the levels
    [seen]: the target is an enabled level of [seen] at the finite
    coordinate [yy], [bestDy] is its distance, and no enabled level of
    [seen] at a finite coordinate is strictly nearer *)
Definition hit_inv (priceToY : num -> option num) (bs : list Bar)
    (e : MouseEvent) (rect : Rect) (seen : list FibLevel)
    (acc : option FibLevel * num) : Prop :=
  match fst acc with
  | None => snd acc = PosInf
  | Some t =>
      t ∈ seen /\ enabled t = true
      /\ exists yy : num,
           line_y priceToY bs t = Some yy /\ isFinite yy = true
           /\ snd acc = hit_dy e rect yy
  end
  /\ forall (l : FibLevel) (yy : num),
       l ∈ seen -> enabled l = true -> line_y priceToY bs l = Some yy ->
       isFinite yy = true -> Js.lt (hit_dy e rect yy) (snd acc) = false.

(** where the loop of [nearestSnap] stands, with the position of the best
    candidate: the candidates before it are strictly farther, those
    after it are not nearer *)
Definition nearest_first_inv (p : num) (seen : list Snap)
    (acc : option Snap * num) : Prop :=
  match fst acc with
  | None => seen = [] /\ snd acc = PosInf
  | Some s =>
      snd acc = dist p s
      /\ exists pre mid : list Snap,
           seen = pre ++ s :: mid
           /\ Forall (fun s' => Js.lt (dist p s) (dist p s') = true) pre
           /\ Forall (fun s' => Js.le (dist p s) (dist p s') = true) mid
  end.

(** ** Dashboard: symbols and level store *)

Definition DEFAULT_COLOR : string := "#ffffff".

Definition DEFAULT_RATIOS : list num :=
  [ofQ (-1); ofQ (-618 # 1000); ofQ (-272 # 1000); ofQ (236 # 1000);
   ofQ (382 # 1000); ofQ (5 # 10); ofQ (618 # 1000); ofQ (786 # 1000);
   ofQ (1272 # 1000); ofQ (1618 # 1000); ofQ 2].

(** [initFibLines(symbol)]; [makeId] renders the ratio into the id *)
Definition initFibLines (makeId : string -> num -> string) (sym : string)
    : list FibLevel :=
  map (fun r => mkFibLevel (makeId sym r) sym r None true false (ofZ 50)
                           ">=" DEFAULT_COLOR)
      DEFAULT_RATIOS.

(** The body of the deduplication loop of [ensureHasXRPUSD]; the state is
    [(seen, out)]. *)
Definition dedupe_step (acc : gset string * list string) (s : string)
    : gset string * list string :=
  if decide (s ∈ fst acc) then acc else ({[s]} ∪ fst acc, snd acc ++ [s]).

(** [ensureHasXRPUSD(list)], the argument named [lst] here;
    [toUpperCase] is the method of the string *)
Definition ensureHasXRPUSD (toUpperCase : string -> string)
    (lst : list string) : list string :=
  if Nat.eqb (length lst) 0 then ["XRPUSD"%string]
  else
    let upper := map toUpperCase lst in
    let upper := if bool_decide ("XRPUSD"%string ∈ upper) then upper
                 else "XRPUSD"%string :: upper in
    snd (foldl dedupe_step (∅, []) upper).

(** [addSymbol], on the [symbols] cell, for the text [raw] of the input;
    an empty symbol leaves the cell alone *)
Definition addSymbol (trim toUpperCase : string -> string) (raw : string)
    (prev : list string) : list string :=
  let sym := toUpperCase (trim raw) in
  if String.eqb sym "" then prev
  else
    let next := if bool_decide (sym ∈ prev) then prev else prev ++ [sym] in
    ensureHasXRPUSD toUpperCase next.

(** the updater of the Remove button of the symbol [sym] *)
Definition removeSymbol (sym : string) (prev : list string) : list string :=
  if String.eqb sym "XRPUSD" && Nat.eqb (length prev) 1 then prev
  else filter (fun s => s <> sym) prev.

(** The [setPerSymFib] updater of the effect on [symbols]: every symbol
    without entry gets the default levels, every key that is no symbol
    is deleted. *)
Definition syncPerSymFib (makeId : string -> num -> string)
    (symbols : list string) (prev : gmap string (list FibLevel))
    : gmap string (list FibLevel) :=
  let nx := foldl (fun nx s => match nx !! s with
                               | Some _ => nx
                               | None => <[s := initFibLines makeId s]> nx
                               end) prev symbols in
  filter (fun kv => fst kv ∈ symbols) nx.

(** [snapNonAlertToRange(symbol)] on the [perSymFib] cell *)
Definition snap_line (ln : FibLevel) : FibLevel :=
  if alertEnabled ln then ln
  else mkFibLevel (id ln) (symbol ln) (ratio ln) None (enabled ln)
                  (alertEnabled ln) (rsiThreshold ln) (rsiOp ln) DEFAULT_COLOR.

Definition snapNonAlertToRange (sym : string)
    (prev : gmap string (list FibLevel)) : gmap string (list FibLevel) :=
  <[sym := map snap_line (default [] (prev !! sym))]> prev.

(** The [setPerSymFib] updater of the effect on [timeframe]: the lines
    without alert of every symbol lose their price. *)
Definition unprice_line (ln : FibLevel) : FibLevel :=
  if alertEnabled ln then ln else with_price ln None.

Definition autoSnap (symbols : list string)
    (prev : gmap string (list FibLevel)) : gmap string (list FibLevel) :=
  foldl (fun out sym =>
           <[sym := map unprice_line (default [] (out !! sym))]> out)
        prev symbols.

(** the patches the controls of a level pass to [onFieldChange] *)
Inductive Patch : Type :=
  | PEnabled (b : bool)
  | PColor (c : string)
  | PPrice (p : option num)
  | PAlertEnabled (b : bool)
  | PRsiOp (op : string)
  | PRsiThreshold (t : num).

(** [{ ...ln, ...patch }] *)
Definition apply_patch (ln : FibLevel) (patch : Patch) : FibLevel :=
  match patch with
  | PEnabled b =>
      mkFibLevel (id ln) (symbol ln) (ratio ln) (price ln) b (alertEnabled ln)
                 (rsiThreshold ln) (rsiOp ln) (color ln)
  | PColor c =>
      mkFibLevel (id ln) (symbol ln) (ratio ln) (price ln) (enabled ln)
                 (alertEnabled ln) (rsiThreshold ln) (rsiOp ln) c
  | PPrice p => with_price ln p
  | PAlertEnabled b =>
      mkFibLevel (id ln) (symbol ln) (ratio ln) (price ln) (enabled ln) b
                 (rsiThreshold ln) (rsiOp ln) (color ln)
  | PRsiOp op =>
      mkFibLevel (id ln) (symbol ln) (ratio ln) (price ln) (enabled ln)
                 (alertEnabled ln) (rsiThreshold ln) op (color ln)
  | PRsiThreshold t =>
      mkFibLevel (id ln) (symbol ln) (ratio ln) (price ln) (enabled ln)
                 (alertEnabled ln) t (rsiOp ln) (color ln)
  end.

(** [onFieldChange(symbol, id, patch)] on the [perSymFib] cell *)
Definition onFieldChange (sym i : string) (patch : Patch)
    (prev : gmap string (list FibLevel)) : gmap string (list FibLevel) :=
  <[sym := map (fun ln => if String.eqb (id ln) i then apply_patch ln patch
                          else ln)
               (default [] (prev !! sym))]> prev.

(** where the deduplication loop stands: [seen] holds the strings of
    [out], which has no duplicate *)
Definition dedupe_inv (acc : gset string * list string) : Prop :=
  NoDup (snd acc) /\ forall s : string, s ∈ fst acc <-> s ∈ snd acc.

(** * Properties *)

(** case analysis on numbers that are known to be finite *)
Ltac fin_cases :=
  repeat match goal with
         | H : isFinite ?x = true |- _ =>
             is_var x; destruct x as [?| | |]; try discriminate H; clear H
         end.

Create HintDb js discriminated.

(** ** Arithmetic of finite numbers *)

Lemma lt_Fin (a b : Qc) : Js.lt (Fin a) (Fin b) = true <-> a < b.
Proof.
  simpl. rewrite Qclt_alt. destruct (a ?= b); split; congruence.
Qed.

Lemma eq_Fin (a b : Qc) : Js.eq (Fin a) (Fin b) = true <-> a = b.
Proof.
  simpl. rewrite Qceq_alt. destruct (a ?= b); split; congruence.
Qed.

Lemma le_Fin (a b : Qc) : Js.le (Fin a) (Fin b) = true <-> a <= b.
Proof.
  unfold Js.le. rewrite orb_true_iff, lt_Fin, eq_Fin. split.
  - intros [H | ->]; [by apply Qclt_le_weak | apply Qcle_refl].
  - apply Qcle_lt_or_eq.
Qed.

Lemma ge_Fin (a b : Qc) : Js.ge (Fin a) (Fin b) = true <-> b <= a.
Proof. apply le_Fin. Qed.

Lemma lt_Fin_false (a b : Qc) : Js.lt (Fin a) (Fin b) = false <-> b <= a.
Proof.
  rewrite <- not_true_iff_false, lt_Fin. split.
  - apply Qcnot_lt_le.
  - apply Qcle_not_lt.
Qed.

Lemma eq_refl_Fin (x : num) : isFinite x = true -> Js.eq x x = true.
Proof. destruct x; try discriminate. intros _. by apply eq_Fin. Qed.

Lemma eq_true_eq (x y : num) : Js.eq x y = true -> x = y.
Proof.
  destruct x, y; try discriminate; try reflexivity.
  intros H. apply eq_Fin in H. by subst.
Qed.

(** integers as numbers *)

Lemma ofZ_le (a b : Z) : Js.le (ofZ a) (ofZ b) = true <-> (a <= b)%Z.
Proof.
  unfold ofZ. rewrite le_Fin. unfold Qcle. simpl.
  rewrite !Qred_correct. by rewrite <- Zle_Qle.
Qed.

Lemma ofZ_lt (a b : Z) : Js.lt (ofZ a) (ofZ b) = true <-> (a < b)%Z.
Proof.
  unfold ofZ. rewrite lt_Fin. unfold Qclt. simpl.
  rewrite !Qred_correct. by rewrite <- Zlt_Qlt.
Qed.

Lemma ofZ_sub (a b : Z) : (ofZ a - ofZ b)%js = ofZ (a - b).
Proof.
  unfold ofZ, Js.sub. simpl. f_equal. apply Qc_is_canon. simpl.
  rewrite !Qred_correct. unfold Z.sub. rewrite inject_Z_plus, inject_Z_opp.
  reflexivity.
Qed.

Lemma Qfloor_ofZ (z : Z) : Qfloor (Q2Qc (inject_Z z)) = z.
Proof.
  simpl. rewrite (Qfloor_comp _ _ (Qred_correct _)). apply Qfloor_Z.
Qed.

Lemma index_of_ofnat (n : nat) : index_of (ofnat n) = Some n.
Proof.
  unfold ofnat, index_of. unfold ofZ at 1.
  rewrite Qfloor_ofZ. fold (ofZ (Z.of_nat n)).
  rewrite (eq_refl_Fin (ofZ (Z.of_nat n)) eq_refl).
  rewrite (proj2 (ofZ_le 0 (Z.of_nat n))) by lia.
  simpl. by rewrite Nat2Z.id.
Qed.

(** ** Heikin-Ashi transform *)

Lemma toHeikinAshi_snoc (l : list Bar) (b : Bar) :
  toHeikinAshi (l ++ [b]) = ha_push (toHeikinAshi l) b.
Proof. unfold toHeikinAshi. by rewrite foldl_app. Qed.

(** What one iteration pushes: the new bar is computed from [b] and from
    the last transformed bar, when there is one. *)
Lemma ha_push_snoc (out : list Bar) (b : Bar) :
  exists h, ha_push out b = out ++ [h]
    /\ time h = time b /\ volume h = volume b
    /\ close h = ((open b + high b + low b + close b) / ofZ 4)%js
    /\ open h = match last out with
                | None => ((open b + close b) / ofZ 2)%js
                | Some prev => ((open prev + close prev) / ofZ 2)%js
                end
    /\ high h = Math_max [high b; open h; close h]
    /\ low h = Math_min [low b; open h; close h].
Proof.
  unfold ha_push. destruct out as [|x out'] using rev_ind.
  - simpl. eexists. split; [reflexivity|]. simpl. tauto.
  - rewrite length_app. simpl length.
    replace (length out' + 1 - 1)%nat with (length out') by lia.
    replace (Nat.eqb (length out' + 1) 0) with false
      by (symmetry; apply Nat.eqb_neq; lia).
    rewrite list_lookup_middle by reflexivity. rewrite last_snoc.
    eexists. split; [reflexivity|]. simpl. tauto.
Qed.

Lemma toHeikinAshi_length (l : list Bar) :
  length (toHeikinAshi l) = length l.
Proof.
  induction l as [|b l IH] using rev_ind; [reflexivity|].
  rewrite toHeikinAshi_snoc.
  destruct (ha_push_snoc (toHeikinAshi l) b) as (h & -> & _).
  rewrite !length_app. simpl. lia.
Qed.

Lemma toHeikinAshi_lookup_snoc (l : list Bar) (b : Bar) (i : nat) :
  (i < length l)%nat ->
  toHeikinAshi (l ++ [b]) !! i = toHeikinAshi l !! i.
Proof.
  intros Hi. rewrite toHeikinAshi_snoc.
  destruct (ha_push_snoc (toHeikinAshi l) b) as (h & -> & _).
  apply lookup_app_l. by rewrite toHeikinAshi_length.
Qed.

Lemma toHeikinAshi_at (bars : list Bar) (i : nat) (b : Bar) :
  bars !! i = Some b ->
  exists h, toHeikinAshi bars !! i = Some h /\ ha_at bars i b h.
Proof.
  revert i b. induction bars as [|x l IH] using rev_ind; intros i b Hb.
  - discriminate.
  - destruct (decide (i < length l)%nat) as [Hlt|Hge].
    + rewrite lookup_app_l in Hb by done.
      destruct (IH i b Hb) as (h & Hh & Ht & Hv & Hc & Ho & Hhi & Hlo).
      exists h. rewrite toHeikinAshi_lookup_snoc by done.
      split; [done|]. repeat split; try done.
      destruct i as [|j]; [done|].
      destruct Ho as (prev & Hp & Ho). exists prev. split; [|done].
      rewrite toHeikinAshi_lookup_snoc by lia. done.
    + assert (i = length l) as ->.
      { apply lookup_lt_Some in Hb. rewrite length_app in Hb. simpl in Hb. lia. }
      rewrite list_lookup_middle in Hb by done. injection Hb as <-.
      pose proof (toHeikinAshi_snoc l x) as Hs.
      destruct (ha_push_snoc (toHeikinAshi l) x)
        as (h & He & Ht & Hv & Hc & Ho & Hhi & Hlo).
      rewrite He in Hs. exists h. split.
      { rewrite Hs. apply list_lookup_middle. by rewrite toHeikinAshi_length. }
      repeat split; try done.
      destruct (length l) as [|j] eqn:Hlen.
      * destruct l; [|discriminate]. exact Ho.
      * destruct (last (toHeikinAshi l)) as [prev|] eqn:Hlast.
        -- exists prev. split; [|done]. rewrite Hs.
           rewrite lookup_app_l by (rewrite toHeikinAshi_length; lia).
           rewrite last_lookup in Hlast.
           rewrite toHeikinAshi_length, Hlen in Hlast. exact Hlast.
        -- apply last_None in Hlast.
           apply (f_equal length) in Hlast.
           rewrite toHeikinAshi_length, Hlen in Hlast. discriminate.
Qed.

(** ** Smoothing *)

Lemma qsum_snoc (l : list Qc) (x : Qc) : qsum (l ++ [x]) = qsum l + x.
Proof.
  induction l as [|a l IH]; simpl.
  - ring.
  - fold (qsum (l ++ [x])). fold (qsum l). rewrite IH. ring.
Qed.

Lemma value_fin (arr : list Point) (i : nat) (x : Point) :
  finite_values arr -> arr !! i = Some x -> value x = Fin (fin_val (value x)).
Proof.
  intros Hf Hx. eapply Forall_lookup_1 in Hf; [|exact Hx]. simpl in Hf.
  by destruct (value x).
Qed.

Lemma js_sum_fin (l : list Point) :
  finite_values l ->
  js_sum (map value l) = Fin (qsum (map (fun x => fin_val (value x)) l)).
Proof.
  induction 1 as [|x l Hx Hl IH]; simpl.
  - reflexivity.
  - fold (js_sum (map value l)). rewrite IH.
    destruct (value x); try discriminate. reflexivity.
Qed.

Lemma ge_ofnat (i W : nat) : Js.ge (ofnat i) (ofnat W) = true <-> (W <= i)%nat.
Proof. unfold Js.ge, ofnat. rewrite ofZ_le. lia. Qed.

Lemma ge_ofnat_pred (i W : nat) :
  Js.ge (ofnat i) (ofnat W - ofZ 1)%js = true <-> (W - 1 <= i)%nat.
Proof. unfold Js.ge, ofnat. rewrite ofZ_sub, ofZ_le. lia. Qed.

Lemma sma_loop_cons (arr : list Point) (w : num) (x : Point)
    (rest : list Point) (i : nat) (sum : num) :
  sma_loop arr w (x :: rest) i sum =
  (if Js.ge (ofnat i) (w - ofZ 1)%js
   then mkPoint (ptime x)
          ((if Js.ge (ofnat i) w
            then (sum + value x - value_at arr (ofnat i - w))%js
            else (sum + value x)%js) / w)%js
   else mkPoint (ptime x) (value x))
  :: sma_loop arr w rest (S i)
       (if Js.ge (ofnat i) w
        then (sum + value x - value_at arr (ofnat i - w))%js
        else (sum + value x)%js).
Proof. reflexivity. Qed.

Lemma sma_loop_lookup (arr : list Point) (W : nat) :
  (1 <= W)%nat -> finite_values arr ->
  forall rest pre, arr = pre ++ rest ->
  forall i x, rest !! i = Some x ->
    sma_loop arr (ofnat W) rest (length pre)
      (Fin (qsum (map qv (drop (length pre - W) pre)))) !! i
    = Some (sma_point arr W (length pre + i) x).
Proof.
  intros HW Hfin rest. induction rest as [|x rest IH]; intros pre Harr i y Hy.
  - discriminate.
  - set (n := length pre).
    assert (Hx : arr !! n = Some x).
    { rewrite Harr. by apply list_lookup_middle. }
    pose proof (value_fin arr n x Hfin Hx) as Hvx.
    assert (Hsum : (if Js.ge (ofnat n) (ofnat W)
                    then (Fin (qsum (map qv (drop (n - W) pre))) + value x
                          - value_at arr (ofnat n - ofnat W))%js
                    else (Fin (qsum (map qv (drop (n - W) pre))) + value x)%js)
                   = Fin (qsum (map qv (drop (S n - W) (pre ++ [x]))))).
    { destruct (Js.ge (ofnat n) (ofnat W)) eqn:Hge.
      - apply ge_ofnat in Hge.
        assert (Hlt : (n - W < length pre)%nat) by (fold n; lia).
        destruct (lookup_lt_is_Some_2 pre (n - W)%nat Hlt) as [z Hz].
        assert (Hz' : arr !! (n - W)%nat = Some z).
        { rewrite Harr. rewrite lookup_app_l by done. done. }
        unfold value_at, ofnat. rewrite ofZ_sub.
        replace (Z.of_nat n - Z.of_nat W)%Z with (Z.of_nat (n - W)) by lia.
        fold (ofnat (n - W)). rewrite index_of_ofnat, Hz'.
        rewrite (value_fin arr _ z Hfin Hz'), Hvx.
        rewrite (drop_S _ _ _ Hz).
        replace (S n - W)%nat with (S (n - W)) by lia.
        rewrite drop_app_le by (fold n; lia).
        rewrite map_app. simpl. rewrite qsum_snoc. f_equal.
        fold (qsum (map qv (drop (S (n - W)) pre))).
        generalize (qsum (map qv (drop (S (n - W)) pre))). intros s.
        unfold qv. ring.
      - assert (Hlt : (n < W)%nat).
        { destruct (decide (W <= n)%nat) as [H|H]; [|lia].
          apply ge_ofnat in H. congruence. }
        replace (n - W)%nat with 0%nat by lia.
        replace (S n - W)%nat with 0%nat by lia.
        rewrite !drop_0, map_app. simpl. rewrite qsum_snoc, Hvx. reflexivity. }
    rewrite sma_loop_cons. fold n. rewrite Hsum.
    destruct i as [|i].
    + injection Hy as <-. cbn [lookup list_lookup]. rewrite Nat.add_0_r.
      unfold sma_point.
      assert (Htake : take (S n) arr = pre ++ [x]).
      { rewrite Harr. rewrite (cons_middle x pre rest), app_assoc.
        rewrite take_app_length'; [done|]. rewrite length_app. simpl. fold n. lia. }
      rewrite Htake.
      destruct (Js.ge (ofnat n) (ofnat W - ofZ 1)%js) eqn:Hge.
      * apply ge_ofnat_pred in Hge. rewrite decide_True by done. done.
      * rewrite decide_False; [done|]. intros H. apply ge_ofnat_pred in H. congruence.
    + cbn [lookup list_lookup] in Hy |- *.
      specialize (IH (pre ++ [x])).
      rewrite length_app in IH. simpl length in IH. fold n in IH.
      replace (n + 1)%nat with (S n) in IH by lia.
      transitivity (Some (sma_point arr W (S n + i) y)).
      * apply IH; [by rewrite <- app_assoc | done].
      * do 2 f_equal. lia.
Qed.

Lemma sma_loop_length (arr : list Point) (w : num) (rest : list Point) :
  forall i sum, length (sma_loop arr w rest i sum) = length rest.
Proof.
  induction rest as [|x rest IH]; intros i sum; [reflexivity|].
  rewrite sma_loop_cons. simpl length. by rewrite IH.
Qed.

Lemma sma_loop_times (arr : list Point) (w : num) (rest : list Point) :
  forall i sum, map ptime (sma_loop arr w rest i sum) = map ptime rest.
Proof.
  induction rest as [|x rest IH]; intros i sum; [reflexivity|].
  rewrite sma_loop_cons. rewrite !map_cons, IH. f_equal.
  by destruct (Js.ge (ofnat i) (w - ofZ 1)%js).
Qed.

Lemma sma_loop_warm_up (arr : list Point) (W : nat) (rest : list Point) :
  forall n sum i x, rest !! i = Some x -> (n + i < W - 1)%nat ->
    sma_loop arr (ofnat W) rest n sum !! i = Some x.
Proof.
  induction rest as [|z rest IH]; intros n sum i x Hx Hlt; [discriminate|].
  rewrite sma_loop_cons. destruct i as [|i].
  - injection Hx as ->. cbn [lookup list_lookup].
    destruct (Js.ge (ofnat n) (ofnat W - ofZ 1)%js) eqn:Hge.
    + apply ge_ofnat_pred in Hge. lia.
    + by destruct x.
  - cbn [lookup list_lookup] in Hx |- *. apply IH; [done | lia].
Qed.

Lemma sma_w_ofnat (W : nat) : (1 <= W)%nat -> sma_w (ofnat W) = ofnat W.
Proof.
  intros HW. unfold sma_w, ofnat, Js.floor. unfold ofZ at 2.
  rewrite Qfloor_ofZ. unfold Math_max. cbn [foldr].
  change (max2 (ofZ (Z.of_nat W)) NegInf) with (ofZ (Z.of_nat W)).
  unfold max2. unfold ofZ at 1 2. fold (ofZ 1). fold (ofZ (Z.of_nat W)).
  destruct (Js.lt (ofZ 1) (ofZ (Z.of_nat W))) eqn:Hlt; [done|].
  assert (W = 1)%nat as ->; [|done].
  destruct (decide (1 < W)%nat) as [H|H]; [|lia].
  assert (Js.lt (ofZ 1) (ofZ (Z.of_nat W)) = true) by (apply ofZ_lt; lia).
  congruence.
Qed.

Lemma sma_w_le_1 (window : num) :
  Js.le window (ofZ 1) = true -> sma_w window = ofZ 1.
Proof.
  intros Hle. unfold sma_w, Math_max. cbn [foldr].
  destruct window as [q| | |]; try discriminate.
  - unfold Js.floor.
    change (max2 (ofZ (Qfloor q)) NegInf) with (ofZ (Qfloor q)).
    unfold max2. unfold ofZ at 1 2. fold (ofZ 1). fold (ofZ (Qfloor q)).
    destruct (Js.lt (ofZ 1) (ofZ (Qfloor q))) eqn:Hlt; [|done].
    apply ofZ_lt in Hlt. exfalso.
    unfold ofZ in Hle. apply le_Fin in Hle. unfold Qcle in Hle. simpl in Hle.
    rewrite Qred_correct in Hle. apply Qfloor_resp_le in Hle.
    change (Qfloor (inject_Z 1)) with 1%Z in Hle. lia.
  - reflexivity.
Qed.

(** ** The claims on the indicator engine *)

(** C9 (Heikin-Ashi transform).  The transform keeps the length of the
    bar sequence, and for every bar [b] at index [i] the transformed bar
    [h] at [i] has: close [(O + H + L + C) / 4] of [b]; open
    [(O + C) / 2] of [b] at index 0 and [(open' + close') / 2] of the
    transformed bar at [i - 1] otherwise; high the maximum of the high
    of [b], the new open and the new close; low the minimum of the low
    of [b], the new open and the new close.  For the single bar
    [{O = 10, H = 12, L = 9, C = 11}] the transformed close and open are
    both 10.5. *)
Theorem heikin_ashi_transform :
  (forall bars : list Bar,
      length (toHeikinAshi bars) = length bars
      /\ forall (i : nat) (b : Bar), bars !! i = Some b ->
         exists h : Bar,
           toHeikinAshi bars !! i = Some h
           /\ close h = ((open b + high b + low b + close b) / ofZ 4)%js
           /\ match i with
              | O => open h = ((open b + close b) / ofZ 2)%js
              | S j => exists prev : Bar,
                         toHeikinAshi bars !! j = Some prev
                         /\ open h = ((open prev + close prev) / ofZ 2)%js
              end
           /\ high h = Math_max [high b; open h; close h]
           /\ low h = Math_min [low b; open h; close h])
  /\ (forall t v : num,
         exists h : Bar,
           toHeikinAshi [mkBar t (ofZ 10) (ofZ 12) (ofZ 9) (ofZ 11) v] = [h]
           /\ close h = ofQ (21 # 2) /\ open h = ofQ (21 # 2)).
Proof.
  split.
  - intros bars. split; [apply toHeikinAshi_length|].
    intros i b Hb.
    destruct (toHeikinAshi_at bars i b Hb)
      as (h & Hh & _ & _ & Hc & Ho & Hhi & Hlo).
    exists h. repeat split; assumption.
  - intros t v. eexists. split; [reflexivity|].
    split; vm_compute; f_equal; apply Qc_is_canon; reflexivity.
Qed.

(** On a two-bar sequence the second synthetic open is the mean of the
    first synthetic open and close. *)
Lemma heikin_ashi_transform_witness :
  exists h0 h1 : Bar,
    toHeikinAshi [mkBar (ofZ 1) (ofZ 10) (ofZ 12) (ofZ 9) (ofZ 11) (ofZ 5);
                  mkBar (ofZ 2) (ofZ 11) (ofZ 13) (ofZ 10) (ofZ 12) (ofZ 7)]
      !! 1%nat = Some h1
    /\ toHeikinAshi [mkBar (ofZ 1) (ofZ 10) (ofZ 12) (ofZ 9) (ofZ 11) (ofZ 5);
                     mkBar (ofZ 2) (ofZ 11) (ofZ 13) (ofZ 10) (ofZ 12) (ofZ 7)]
         !! 0%nat = Some h0
    /\ open h1 = ((open h0 + close h0) / ofZ 2)%js.
Proof.
  destruct (proj2 (proj1 heikin_ashi_transform
                     [mkBar (ofZ 1) (ofZ 10) (ofZ 12) (ofZ 9) (ofZ 11) (ofZ 5);
                      mkBar (ofZ 2) (ofZ 11) (ofZ 13) (ofZ 10) (ofZ 12) (ofZ 7)])
                  1%nat
                  (mkBar (ofZ 2) (ofZ 11) (ofZ 13) (ofZ 10) (ofZ 12) (ofZ 7))
                  eq_refl)
    as (h1 & H1 & _ & (h0 & H0 & Ho) & _).
  exists h0, h1. split; [exact H1|]. split; [exact H0|exact Ho].
Defined.

(** C10 (smoothing warm-up).  [sma] returns a series of the length of
    its input with the same timestamps; a window of at most 1 returns
    the input; for an effective window [W] above 1 (the window floored,
    [W] itself for an integer window) the value at an index
    [i < W - 1] is the input value at [i], unchanged, and on a series of
    finite values the value at an index [i >= W - 1] is the sum of the
    [W] most recent input values divided by [W]. *)
Theorem sma_warm_up (arr : list Point) (window : num) :
  length (sma arr window) = length arr
  /\ map ptime (sma arr window) = map ptime arr
  /\ (Js.le window (ofZ 1) = true -> sma arr window = arr)
  /\ (forall W : nat, (1 <= W)%nat -> sma_w (ofnat W) = ofnat W)
  /\ (forall W : nat, sma_w window = ofnat W -> (1 < W)%nat ->
      forall (i : nat) (x : Point), arr !! i = Some x ->
      exists y : Point,
        sma arr window !! i = Some y
        /\ ptime y = ptime x
        /\ ((i < W - 1)%nat -> value y = value x)
        /\ ((W - 1 <= i)%nat -> finite_values arr ->
            value y = (js_sum (map value (recent W i arr)) / ofnat W)%js)).
Proof.
  assert (Hlen : length (sma arr window) = length arr).
  { unfold sma. destruct (Js.le (sma_w window) (ofZ 1)); [done|].
    apply sma_loop_length. }
  assert (Htimes : map ptime (sma arr window) = map ptime arr).
  { unfold sma. destruct (Js.le (sma_w window) (ofZ 1)); [done|].
    apply sma_loop_times. }
  split; [exact Hlen|]. split; [exact Htimes|]. split; [|split].
  - intros Hle. unfold sma. rewrite (sma_w_le_1 window Hle).
    by rewrite (proj2 (ofZ_le 1 1)) by lia.
  - apply sma_w_ofnat.
  - intros W HW H1 i x Hx.
    assert (Hi : (i < length (sma arr window))%nat).
    { rewrite Hlen. by eapply lookup_lt_Some. }
    destruct (lookup_lt_is_Some_2 _ _ Hi) as [y Hy].
    exists y. split; [exact Hy|].
    assert (Hsma : sma arr window = sma_loop arr (ofnat W) arr 0 (ofZ 0)).
    { unfold sma. rewrite HW.
      destruct (Js.le (ofnat W) (ofZ 1)) eqn:Hle; [|done].
      apply ofZ_le in Hle. lia. }
    split; [|split].
    + apply (f_equal (fun l => l !! i)) in Htimes.
      rewrite !list_lookup_fmap, Hy, Hx in Htimes. by injection Htimes.
    + intros Hlt. rewrite Hsma in Hy.
      rewrite (sma_loop_warm_up arr W arr 0 (ofZ 0) i x Hx) in Hy by lia.
      by injection Hy as <-.
    + intros Hge Hfin. rewrite Hsma in Hy.
      pose proof (sma_loop_lookup arr W (Nat.lt_le_incl _ _ H1) Hfin arr []
                    eq_refl i x Hx) as Hl.
      cbn [length] in Hl. rewrite Nat.sub_0_l, drop_0 in Hl.
      change (Fin (qsum (map qv []))) with (ofZ 0) in Hl.
      rewrite Hl in Hy. injection Hy as <-.
      unfold sma_point. rewrite decide_True by done.
      cbn [value]. f_equal. unfold recent.
      rewrite take_drop_commute.
      replace (S i - W + W)%nat with (S i) by lia.
      rewrite js_sum_fin; [done|].
      apply Forall_drop, Forall_take. exact Hfin.
Qed.

(** A four-point series smoothed with window 3: the value at index 2 is
    the mean of the three values so far. *)
Lemma sma_warm_up_witness :
  exists y : Point,
    sma [mkPoint (ofZ 1) (ofZ 1); mkPoint (ofZ 2) (ofZ 4);
         mkPoint (ofZ 3) (ofZ 9); mkPoint (ofZ 4) (ofZ 16)] (ofnat 3)
      !! 2%nat = Some y
    /\ value y = (js_sum [ofZ 1; ofZ 4; ofZ 9] / ofnat 3)%js.
Proof.
  destruct (proj2 (proj2 (proj2 (proj2
              (sma_warm_up
                 [mkPoint (ofZ 1) (ofZ 1); mkPoint (ofZ 2) (ofZ 4);
                  mkPoint (ofZ 3) (ofZ 9); mkPoint (ofZ 4) (ofZ 16)]
                 (ofnat 3)))))
              3%nat eq_refl (le_S 2 2 (le_n 2)) 2%nat (mkPoint (ofZ 3) (ofZ 9))
              eq_refl)
    as (y & Hy & _ & _ & Hm).
  exists y. split; [exact Hy|].
  apply Hm; [apply le_n | repeat constructor].
Defined.

(** ** Rolling window and resolver *)

Lemma window_look_length (bs : list Bar) :
  length (window_look bs) = Nat.min 120 (length bs).
Proof. unfold window_look. rewrite length_drop. lia. Qed.

Lemma window_look_nil (bs : list Bar) : window_look bs = [] <-> bs = [].
Proof.
  split.
  - intros H. apply (f_equal length) in H. rewrite window_look_length in H.
    destruct bs; [done|]. simpl in H. lia.
  - by intros ->.
Qed.

Lemma window_hi_lo (bs : list Bar) :
  bs <> [] ->
  window_hi bs = Some (Math_max (map high (window_look bs)))
  /\ window_lo bs = Some (Math_min (map low (window_look bs))).
Proof.
  intros Hne. unfold window_hi, window_lo. cbv zeta.
  destruct (window_look bs) as [|b l] eqn:Hl.
  - apply (proj1 (window_look_nil bs)) in Hl. contradiction.
  - split; reflexivity.
Qed.

Lemma window_range_None (bs : list Bar) : window_range bs = None <-> bs = [].
Proof.
  split.
  - intros H. destruct bs as [|b bs]; [done|].
    destruct (window_hi_lo (b :: bs)) as [Hh Hl]; [done|].
    unfold window_range in H. rewrite Hh, Hl in H. discriminate.
  - by intros ->.
Qed.

(** C4 (price-level resolver).  An explicit price is returned unchanged;
    without one, an available window gives [low + ratio * range];
    without a window the close of the last bar is returned; the result
    is null exactly when there is no explicit price and no bar.  The
    window of a non-empty buffer is the maximum of the highs and the
    minimum of the lows of its last 120 bars, and their difference. *)
Theorem price_level_resolver (ln : FibLevel) :
  (forall (range lo : option num) (last : option Bar) (p : num),
      price ln = Some p -> getLinePrice ln range lo last = Some p)
  /\ (forall (rg l : num) (last : option Bar),
      price ln = None ->
      getLinePrice ln (Some rg) (Some l) last = Some (l + ratio ln * rg)%js)
  /\ (forall (lo : option num) (last : option Bar),
      price ln = None -> getLinePrice ln None lo last = close <$> last)
  /\ (forall (range lo : option num) (last : option Bar),
      getLinePrice ln range lo last = None -> price ln = None /\ last = None)
  /\ (forall bs : list Bar,
      window_look bs = drop (length bs - 120) bs
      /\ length (window_look bs) = Nat.min 120 (length bs))
  /\ (forall bs : list Bar, bs <> [] ->
      exists hi lo : num,
        hi = Math_max (map high (window_look bs))
        /\ lo = Math_min (map low (window_look bs))
        /\ window_hi bs = Some hi /\ window_lo bs = Some lo
        /\ window_range bs = Some (hi - lo)%js
        /\ (price ln = None ->
            resolve ln bs = Some (lo + ratio ln * (hi - lo))%js))
  /\ (forall bs : list Bar, window_range bs = None <-> bs = [])
  /\ (forall bs : list Bar,
      resolve ln bs = None <-> price ln = None /\ bs = []).
Proof.
  split_and!.
  - intros range lo last p Hp. unfold getLinePrice. by rewrite Hp.
  - intros rg l last Hp. unfold getLinePrice. by rewrite Hp.
  - intros lo last Hp. unfold getLinePrice. rewrite Hp. by destruct last.
  - intros range lo last H. unfold getLinePrice in H.
    destruct (price ln); [discriminate|].
    destruct range, lo, last; done.
  - intros bs. split; [reflexivity | apply window_look_length].
  - intros bs Hne. destruct (window_hi_lo bs Hne) as [Hh Hl].
    eexists _, _. split; [reflexivity|]. split; [reflexivity|].
    split; [exact Hh|]. split; [exact Hl|].
    assert (Hr : window_range bs
                 = Some (Math_max (map high (window_look bs))
                         - Math_min (map low (window_look bs)))%js).
    { unfold window_range. by rewrite Hh, Hl. }
    split; [exact Hr|].
    intros Hp. unfold resolve, getLinePrice. by rewrite Hp, Hr, Hl.
  - apply window_range_None.
  - intros bs. split.
    + intros H. unfold resolve, getLinePrice in H.
      destruct (price ln); [discriminate|]. split; [done|].
      destruct bs as [|b bs]; [done|]. exfalso.
      destruct (window_hi_lo (b :: bs)) as [Hh Hl]; [done|].
      unfold window_range in H. rewrite Hh, Hl in H. discriminate.
    + intros [Hp ->]. unfold resolve, getLinePrice. by rewrite Hp.
Qed.

(** A level without explicit price, of ratio 0.5, on a single bar of
    high 12 and low 8, resolves to [8 + 0.5 * (12 - 8)]. *)
Lemma price_level_resolver_witness :
  resolve (mkFibLevel "X-fib-0_5" "X" (ofQ (1 # 2)) None true false (ofZ 50)
                      ">=" "#ffffff")
          [mkBar (ofZ 1) (ofZ 9) (ofZ 12) (ofZ 8) (ofZ 10) (ofZ 3)]
  = Some (ofZ 8 + ofQ (1 # 2) * (ofZ 12 - ofZ 8))%js.
Proof.
  destruct (proj1 (proj2 (proj2 (proj2 (proj2 (proj2
              (price_level_resolver
                 (mkFibLevel "X-fib-0_5" "X" (ofQ (1 # 2)) None true false
                             (ofZ 50) ">=" "#ffffff")))))))
              [mkBar (ofZ 1) (ofZ 9) (ofZ 12) (ofZ 8) (ofZ 10) (ofZ 3)]
              ltac:(discriminate))
    as (hi & lo & -> & -> & _ & _ & _ & Hres).
  exact (Hres eq_refl).
Defined.

(** ** Alert log and delivery *)

Lemma pushAlert_cons (a : AlertEvent) (prev : list AlertEvent) :
  pushAlert a prev = a :: take 199 prev.
Proof. reflexivity. Qed.

Lemma push_all_rev (evs : list AlertEvent) :
  forall log, push_all evs log = take 200 (reverse evs ++ log)
              \/ (evs = [] /\ push_all evs log = log).
Proof.
  induction evs as [|a evs IH] using rev_ind; intros log; [by right|].
  left. unfold push_all in *. rewrite foldl_app. simpl.
  rewrite reverse_snoc. change ((a :: reverse evs) ++ log)
    with (a :: (reverse evs ++ log)).
  destruct (IH log) as [-> | [-> ->]].
  - unfold pushAlert. simpl. f_equal. rewrite take_take. f_equal.
  - reflexivity.
Qed.

(** C7 (alert log bound and order).  After a push the log holds at most
    200 entries and starts with the pushed event, followed by the
    entries it held before, in their order; a log of 200 entries loses
    its last, oldest entry and keeps the 199 others unchanged.  Pushed
    from the empty log, a sequence of events is kept most-recent first,
    cut at 200. *)
Theorem alert_log_bound (a : AlertEvent) (prev : list AlertEvent) :
  (length (pushAlert a prev) <= 200)%nat
  /\ pushAlert a prev !! 0%nat = Some a
  /\ (forall i : nat, (S i < 200)%nat ->
      pushAlert a prev !! (S i) = prev !! i)
  /\ (forall i : nat, (200 <= i)%nat -> pushAlert a prev !! i = None)
  /\ (length prev = 200%nat ->
      exists (kept : list AlertEvent) (oldest : AlertEvent),
        prev = kept ++ [oldest]
        /\ pushAlert a prev = a :: kept
        /\ length (pushAlert a prev) = 200%nat)
  /\ (forall evs : list AlertEvent,
      push_all evs [] = take 200 (reverse evs)).
Proof.
  rewrite pushAlert_cons. repeat split.
  - simpl. rewrite length_take. lia.
  - intros i Hi. simpl. apply lookup_take_lt. lia.
  - intros i Hi. apply lookup_ge_None. simpl. rewrite length_take. lia.
  - intros Hlen. exists (take 199 prev).
    destruct (lookup_lt_is_Some_2 prev 199) as [o Ho]; [lia|].
    exists o. split; [|split; [done|]].
    + rewrite <- (take_drop 199 prev) at 1. f_equal.
      rewrite (drop_S _ _ _ Ho). f_equal.
      apply drop_ge. lia.
    + simpl. rewrite length_take. lia.
  - intros evs. destruct (push_all_rev evs []) as [-> | [-> ->]].
    + by rewrite app_nil_r.
    + reflexivity.
Qed.

(** Pushing onto a log of 200 copies of one event keeps 200 entries. *)
Lemma alert_log_bound_witness :
  length (pushAlert ex_event (replicate 200 ex_event)) = 200%nat.
Proof.
  destruct (proj1 (proj2 (proj2 (proj2 (proj2
              (alert_log_bound ex_event (replicate 200 ex_event))))))
              (length_replicate 200 ex_event))
    as (kept & oldest & _ & _ & Hlen).
  exact Hlen.
Defined.

(** C8 (delivery status).  The event handed to the dashboard carries
    [delivered = true] exactly when the POST resolved with an ok
    response, whatever reading the body does, and [false] on a
    response that is not ok and on a rejected fetch; in every case the
    event is pushed on the alert log, at its head. *)
Theorem delivery_status (now : num) (msg : Message) (r : FetchOutcome)
    (log : list AlertEvent) :
  deliver dashboard_onAlert now msg r log
  = pushAlert (mkAlertEvent now msg (delivery_flag r)) log
  /\ deliver dashboard_onAlert now msg r log !! 0%nat
     = Some (mkAlertEvent now msg (delivery_flag r))
  /\ (delivery_flag r = true <-> exists j : bool, r = Resolved true j)
  /\ (delivery_flag r = false <->
      r = Rejected \/ exists j : bool, r = Resolved false j).
Proof.
  split; [reflexivity|]. split; [reflexivity|]. split.
  - destruct r as [[|] j|]; simpl; split; try discriminate; eauto.
    + intros [j' H]. discriminate.
    + intros [j' H]. discriminate.
  - destruct r as [[|] j|]; simpl; split; try discriminate; eauto.
    intros [H | [j' H]]; discriminate.
Qed.

(** ** Alert evaluator *)

Lemma crossed_iff (prev cur : option num) (level : num) :
  crossed prev cur level = true <->
  exists pc : num, prev = Some pc
                   /\ Js.lt pc level <> Js.lt (toNumber cur) level.
Proof.
  unfold crossed, wasBelow, isBelow. destruct prev as [pc|].
  - rewrite negb_true_iff, eqb_false_iff. split.
    + intros H. by exists pc.
    + intros (pc' & [= <-] & H). exact H.
  - split; [discriminate|]. intros (pc & H & _). discriminate.
Qed.

(** When the body of the [forEach] hands a message to the delivery. *)
Lemma level_alert_Some (sym timeframe : string) (useHaRsi : bool)
    (cur rsiVal prev : option num) (ln : FibLevel) (m : Message) :
  level_alert sym timeframe useHaRsi cur rsiVal prev ln = Some m <->
  enabled ln = true /\ alertEnabled ln = true
  /\ exists lp r : num,
       price ln = Some lp /\ rsiVal = Some r
       /\ isFinite (rsiThreshold ln) = true
       /\ crossed prev cur lp = true
       /\ rsi_gate (rsiOp ln) r (rsiThreshold ln) = true
       /\ m = mkMessage sym timeframe (ratio ln) lp useHaRsi (or_zero r).
Proof.
  unfold level_alert.
  destruct (enabled ln), (alertEnabled ln), (price ln) as [lp|],
    rsiVal as [r|]; simpl;
    try (split; [discriminate | intros (? & ? & ? & ? & ? & ? & _);
                                 discriminate]).
  destruct (isFinite (rsiThreshold ln)) eqn:Hf; simpl.
  2:{ split; [discriminate|].
      intros (_ & _ & ? & ? & _ & _ & ? & _). discriminate. }
  destruct (crossed prev cur lp) eqn:Hc; simpl.
  2:{ split; [discriminate|].
      intros (_ & _ & lp' & r' & [= <-] & _ & _ & Hc' & _). congruence. }
  destruct (rsi_gate (rsiOp ln) r (rsiThreshold ln)) eqn:Hg; simpl.
  2:{ split; [discriminate|].
      intros (_ & _ & lp' & r' & [= <-] & [= <-] & _ & _ & Hg' & _).
      congruence. }
  split.
  - intros [= <-]. split; [done|]. split; [done|]. by exists lp, r.
  - intros (_ & _ & lp' & r' & [= <-] & [= <-] & _ & _ & _ & ->). done.
Qed.

Lemma level_alert_is_Some (sym timeframe : string) (useHaRsi : bool)
    (cur rsiVal prev : option num) (ln : FibLevel) :
  is_Some (level_alert sym timeframe useHaRsi cur rsiVal prev ln) <->
  enabled ln = true /\ alertEnabled ln = true
  /\ exists lp r : num,
       price ln = Some lp /\ rsiVal = Some r
       /\ isFinite (rsiThreshold ln) = true
       /\ crossed prev cur lp = true
       /\ rsi_gate (rsiOp ln) r (rsiThreshold ln) = true.
Proof.
  split.
  - intros [m Hm]. apply level_alert_Some in Hm.
    destruct Hm as (He & Ha & lp & r & Hp & Hr & Hf & Hc & Hg & _).
    split; [done|]. split; [done|]. by exists lp, r.
  - intros (He & Ha & lp & r & Hp & Hr & Hf & Hc & Hg).
    eexists. apply level_alert_Some.
    split; [done|]. split; [done|]. by exists lp, r.
Qed.

Lemma upsert_last (prev : list Bar) (bar : Bar) :
  last (upsert prev bar) = Some bar.
Proof.
  unfold upsert. destruct (last prev) as [l|] eqn:Hl.
  - destruct (Js.eq (time l) (time bar)); [|apply last_snoc].
    apply last_Some in Hl as [l' ->].
    rewrite length_app. simpl.
    replace (length l' + 1 - 1)%nat with (length l' + 0)%nat by lia.
    rewrite insert_app_r. simpl. apply last_snoc.
  - apply last_snoc.
Qed.

(** A same-bucket update replaces the last bar and leaves the bars
    before it, hence the previous completed close, as they were. *)
Lemma upsert_same_bucket (pre : list Bar) (l bar : Bar) :
  Js.eq (time l) (time bar) = true ->
  upsert (pre ++ [l]) bar = pre ++ [bar].
Proof.
  intros Ht. unfold upsert. rewrite last_snoc, Ht.
  rewrite length_app. simpl.
  replace (length pre + 1 - 1)%nat with (length pre + 0)%nat by lia.
  by rewrite insert_app_r.
Qed.

Lemma prevClose_snoc2 (pre : list Bar) (b l : Bar) :
  prevClose (pre ++ [b; l]) = Some (close b).
Proof.
  unfold prevClose. rewrite length_app. simpl length.
  replace (Nat.ltb 1 (length pre + 2)) with true
    by (symmetry; apply Nat.ltb_lt; lia).
  replace (length pre + 2 - 2)%nat with (length pre) by lia.
  by rewrite list_lookup_middle.
Qed.

(** C2 (edge-triggered crossing).  The crossing test holds exactly when
    a previous close exists and lies on the other side of the level
    than the current close; without previous close, or with both closes
    on one side, it fails.  For an enabled, alert-enabled level with a
    price, no alert is emitted without a crossing, and with an RSI
    value that passes the gate against a finite threshold an alert is
    emitted exactly on a crossing.  The previous close is the close of
    the bar before the last one.  For the closes 110, 108, 112 and the
    level 109 the test fails after the first bar and holds after the
    second and after the third. *)
Theorem crossing_edge_triggered :
  (forall (prev cur : option num) (level : num),
      crossed prev cur level = true <->
      exists pc : num, prev = Some pc
                       /\ Js.lt pc level <> Js.lt (toNumber cur) level)
  /\ (forall (cur : option num) (level : num),
      crossed None cur level = false)
  /\ (forall (pc : num) (cur : option num) (level : num),
      Js.lt pc level = Js.lt (toNumber cur) level ->
      crossed (Some pc) cur level = false)
  /\ (forall (sym timeframe : string) (useHaRsi : bool)
             (cur rsiVal prev : option num) (ln : FibLevel) (lp : num),
      enabled ln = true -> alertEnabled ln = true -> price ln = Some lp ->
      (is_Some (level_alert sym timeframe useHaRsi cur rsiVal prev ln) ->
       crossed prev cur lp = true)
      /\ (forall r : num,
          rsiVal = Some r -> isFinite (rsiThreshold ln) = true ->
          rsi_gate (rsiOp ln) r (rsiThreshold ln) = true ->
          (is_Some (level_alert sym timeframe useHaRsi cur rsiVal prev ln)
           <-> crossed prev cur lp = true)))
  /\ (forall (rsiCalc : list num -> list num) (st : ChartState) (bar : Bar),
      lastPrice (onmessage rsiCalc st bar) = Some (close bar)
      /\ last (bars (onmessage rsiCalc st bar)) = Some bar)
  /\ (forall (b : Bar), prevClose [] = None /\ prevClose [b] = None)
  /\ (forall (pre : list Bar) (b l : Bar),
      prevClose (pre ++ [b; l]) = Some (close b))
  /\ (forall rsiCalc : list num -> list num,
      let st1 := onmessage rsiCalc initialState (ex_bar 1 110) in
      let st2 := onmessage rsiCalc st1 (ex_bar 2 108) in
      let st3 := onmessage rsiCalc st2 (ex_bar 3 112) in
      map close (bars st3) = [ofZ 110; ofZ 108; ofZ 112]
      /\ crossed (prevClose (bars st1)) (lastPrice st1) (ofZ 109) = false
      /\ crossed (prevClose (bars st2)) (lastPrice st2) (ofZ 109) = true
      /\ crossed (prevClose (bars st3)) (lastPrice st3) (ofZ 109) = true).
Proof.
  split_and!.
  - apply crossed_iff.
  - reflexivity.
  - intros pc cur level H. unfold crossed, wasBelow, isBelow.
    rewrite H. by destruct (Js.lt (toNumber cur) level).
  - intros sym timeframe useHaRsi cur rsiVal prev ln lp He Ha Hp. split.
    + intros H. apply level_alert_is_Some in H.
      destruct H as (_ & _ & lp' & r & Hp' & _ & _ & Hc & _).
      rewrite Hp in Hp'. by injection Hp' as <-.
    + intros r Hr Hf Hg. rewrite level_alert_is_Some. split.
      * intros (_ & _ & lp' & r' & Hp' & _ & _ & Hc & _).
        rewrite Hp in Hp'. by injection Hp' as <-.
      * intros Hc. split; [done|]. split; [done|]. by exists lp, r.
  - intros rsiCalc st bar. split; [reflexivity|]. apply upsert_last.
  - intros b. split; reflexivity.
  - apply prevClose_snoc2.
  - intros rsiCalc. cbv zeta. split_and!; reflexivity.
Qed.

(** A close of 108 after a close of 110 crosses the level 109. *)
Lemma crossing_edge_triggered_witness :
  crossed (Some (ofZ 110)) (Some (ofZ 108)) (ofZ 109) = true
  /\ crossed (Some (ofZ 108)) (Some (ofZ 107)) (ofZ 109) = false.
Proof.
  split.
  - apply (proj1 crossing_edge_triggered). exists (ofZ 110).
    split; [reflexivity | discriminate].
  - apply (proj1 (proj2 (proj2 crossing_edge_triggered))). reflexivity.
Defined.

(** C3 (RSI gate).  The operator [">="] passes exactly when the RSI value
    is at least the threshold and ["<="] exactly when it is at most the
    threshold (a missing operator counts as [">="]).  On a detected
    crossing of an enabled, alert-enabled level with a price and a
    finite threshold, an alert is emitted exactly when the gate passes.
    With [">="] and threshold 60 on a crossing of the level 109, the RSI
    value 65 emits an alert and 55 emits none. *)
Theorem rsi_gate_semantics :
  (forall r thr : num, rsi_gate ">=" r thr = Js.ge r thr)
  /\ (forall r thr : num, rsi_gate "<=" r thr = Js.le r thr)
  /\ (forall r thr : num, rsi_gate "" r thr = Js.ge r thr)
  /\ (forall a b : Qc, rsi_gate ">=" (Fin a) (Fin b) = true <-> b <= a)
  /\ (forall a b : Qc, rsi_gate "<=" (Fin a) (Fin b) = true <-> a <= b)
  /\ (forall (sym timeframe : string) (useHaRsi : bool)
             (cur prev : option num) (ln : FibLevel) (lp r : num),
      enabled ln = true -> alertEnabled ln = true -> price ln = Some lp ->
      isFinite (rsiThreshold ln) = true -> crossed prev cur lp = true ->
      (is_Some (level_alert sym timeframe useHaRsi cur (Some r) prev ln)
       <-> rsi_gate (rsiOp ln) r (rsiThreshold ln) = true))
  /\ (rsiOp ex_level = ">="%string /\ rsiThreshold ex_level = ofZ 60
      /\ is_Some (level_alert "X" "1m" false (Some (ofZ 108))
                              (Some (ofZ 65)) (Some (ofZ 110)) ex_level)
      /\ level_alert "X" "1m" false (Some (ofZ 108)) (Some (ofZ 55))
                     (Some (ofZ 110)) ex_level = None).
Proof.
  split_and!; try reflexivity.
  - intros a b. apply ge_Fin.
  - intros a b. apply le_Fin.
  - intros sym timeframe useHaRsi cur prev ln lp r He Ha Hp Hf Hc.
    rewrite level_alert_is_Some. split.
    + intros (_ & _ & lp' & r' & _ & [= <-] & _ & _ & Hg). exact Hg.
    + intros Hg. split; [done|]. split; [done|]. by exists lp, r.
  - by eexists.
Qed.

(** With a threshold of 60 the operator [">="] passes the value 65. *)
Lemma rsi_gate_semantics_witness :
  is_Some (level_alert "X" "1m" false (Some (ofZ 108)) (Some (ofZ 65))
                       (Some (ofZ 110)) ex_level).
Proof.
  apply (proj1 (proj2 (proj2 (proj2 (proj2 (proj2 rsi_gate_semantics)))))
           "X"%string "1m"%string false (Some (ofZ 108)) (Some (ofZ 110))
           ex_level (ofZ 109) (ofZ 65));
    reflexivity.
Defined.

(** ** Alerts over the ticks of the feed *)

Lemma alertEffect_omap (sym timeframe : string) (useHaRsi : bool)
    (fibLines : list FibLevel) (st : ChartState) :
  bars st <> [] ->
  alertEffect sym timeframe useHaRsi fibLines st
  = omap (level_alert sym timeframe useHaRsi (lastPrice st)
            (if useHaRsi then haRsi st else rsi st) (prevClose (bars st)))
         fibLines.
Proof.
  intros Hne. unfold alertEffect.
  destruct (bars st) as [|b bs] eqn:Hb; [done|].
  destruct fibLines as [|ln lns]; reflexivity.
Qed.

(** C1, as the code has it.  The claim fails: the evaluator keeps no
    record of the alerts it emitted.  One run of the alert effect emits,
    in the order of the levels, one alert for each level that passes
    the guards, the crossing test and the RSI gate on that run, and none
    for any other level; it emits nothing on an empty buffer.  A
    same-bucket update replaces the last bar and leaves the previous
    completed close as it was, so the run that follows it emits an
    alert for every level whose price lies between that previous close
    and the updated close and whose gate passes, whatever was emitted
    before, and none for a level that has both closes on one side. *)
Theorem alert_once_per_tick :
  (forall (sym timeframe : string) (useHaRsi : bool)
          (fibLines : list FibLevel) (st : ChartState),
      (bars st = [] -> alertEffect sym timeframe useHaRsi fibLines st = [])
      /\ (bars st <> [] ->
          alertEffect sym timeframe useHaRsi fibLines st
          = omap (level_alert sym timeframe useHaRsi (lastPrice st)
                    (if useHaRsi then haRsi st else rsi st)
                    (prevClose (bars st))) fibLines))
  /\ (forall (sym timeframe : string) (useHaRsi : bool)
             (cur rsiVal prev : option num) (ln : FibLevel),
      is_Some (level_alert sym timeframe useHaRsi cur rsiVal prev ln) <->
      enabled ln = true /\ alertEnabled ln = true
      /\ exists lp r : num,
           price ln = Some lp /\ rsiVal = Some r
           /\ isFinite (rsiThreshold ln) = true
           /\ crossed prev cur lp = true
           /\ rsi_gate (rsiOp ln) r (rsiThreshold ln) = true)
  /\ (forall (rsiCalc : list num -> list num) (sym timeframe : string)
             (useHaRsi : bool) (fibLines : list FibLevel) (st : ChartState)
             (pre : list Bar) (b l bar : Bar),
      bars st = pre ++ [b; l] -> Js.eq (time l) (time bar) = true ->
      bars (onmessage rsiCalc st bar) = pre ++ [b; bar]
      /\ prevClose (bars (onmessage rsiCalc st bar)) = prevClose (bars st)
      /\ prevClose (bars st) = Some (close b)
      /\ lastPrice (onmessage rsiCalc st bar) = Some (close bar)
      /\ (forall (ln : FibLevel) (lp r : num),
          ln ∈ fibLines ->
          enabled ln = true -> alertEnabled ln = true -> price ln = Some lp ->
          (if useHaRsi then haRsi (onmessage rsiCalc st bar)
           else rsi (onmessage rsiCalc st bar)) = Some r ->
          isFinite (rsiThreshold ln) = true ->
          rsi_gate (rsiOp ln) r (rsiThreshold ln) = true ->
          (Js.lt (close b) lp <> Js.lt (close bar) lp ->
           mkMessage sym timeframe (ratio ln) lp useHaRsi (or_zero r)
           ∈ snd (tick rsiCalc sym timeframe useHaRsi fibLines st bar))
          /\ (Js.lt (close b) lp = Js.lt (close bar) lp ->
              level_alert sym timeframe useHaRsi
                (lastPrice (onmessage rsiCalc st bar)) (Some r)
                (prevClose (bars (onmessage rsiCalc st bar))) ln = None))).
Proof.
  split_and!.
  - intros sym timeframe useHaRsi fibLines st. split.
    + intros Hb. unfold alertEffect. by rewrite Hb.
    + apply alertEffect_omap.
  - apply level_alert_is_Some.
  - intros rsiCalc sym timeframe useHaRsi fibLines st pre b l bar Hb Ht.
    assert (Hbars : bars (onmessage rsiCalc st bar) = pre ++ [b; bar]).
    { cbn [onmessage bars]. rewrite Hb.
      rewrite (cons_middle b pre [l]), app_assoc.
      rewrite upsert_same_bucket by done.
      by rewrite <- app_assoc. }
    assert (Hprev : prevClose (bars st) = Some (close b)).
    { rewrite Hb. apply prevClose_snoc2. }
    assert (Hprev' : prevClose (bars (onmessage rsiCalc st bar))
                     = Some (close b)).
    { rewrite Hbars. apply prevClose_snoc2. }
    split; [exact Hbars|]. split; [by rewrite Hprev, Hprev'|].
    split; [exact Hprev|]. split; [reflexivity|].
    intros ln lp r Hin He Ha Hp Hr Hf Hg. split.
    + intros Hne. unfold tick. cbn [snd].
      rewrite alertEffect_omap by (rewrite Hbars; by destruct pre).
      apply list_elem_of_omap. exists ln. split; [exact Hin|].
      apply level_alert_Some. split; [done|]. split; [done|].
      exists lp, r. split_and!; try done.
      rewrite Hprev'. apply crossed_iff. exists (close b). by split.
    + intros Hsame. rewrite Hprev'.
      destruct (level_alert sym timeframe useHaRsi
                  (lastPrice (onmessage rsiCalc st bar)) (Some r)
                  (Some (close b)) ln) as [m|] eqn:Hm; [|done].
      apply level_alert_Some in Hm.
      destruct Hm as (_ & _ & lp' & r' & Hp' & _ & _ & Hc & _).
      rewrite Hp in Hp'. injection Hp' as <-.
      apply crossed_iff in Hc. destruct Hc as (pc & [= <-] & Hc).
      contradiction.
Qed.

(** The level 109 is crossed by the close 108 after the close 110; the
    same-bucket update to the close 107 emits the alert again. *)
Lemma alert_once_per_tick_witness :
  mkMessage "X" "1m" (ratio ex_level) (ofZ 109) false (or_zero (ofZ 65))
  ∈ snd (tick (ex_rsi 65) "X" "1m" false [ex_level] ex_state (ex_bar 2 107)).
Proof.
  destruct (proj2 (proj2 alert_once_per_tick) (ex_rsi 65) "X"%string
              "1m"%string false [ex_level] ex_state [] (ex_bar 1 110)
              (ex_bar 2 108) (ex_bar 2 107) eq_refl eq_refl)
    as (_ & _ & _ & _ & H).
  apply (H ex_level (ofZ 109) (ofZ 65)); try reflexivity.
  - apply list_elem_of_In. left. reflexivity.
  - vm_compute. discriminate.
Defined.

(** C1, counterexample.  On the closes 110 then 108 the level 109 is
    crossed and the tick emits one alert; the next message is a
    same-bucket update of the in-progress bar to the close 107: the
    buffer keeps its length, the previous completed close is unchanged,
    the close has stayed below the level, and the tick emits the alert
    a second time. *)
Lemma at_most_once_counterexample :
  exists (st1 st2 st3 : ChartState) (m : Message),
    tick (ex_rsi 65) "X" "1m" false [ex_level] initialState (ex_bar 1 110)
    = (st1, [])
    /\ tick (ex_rsi 65) "X" "1m" false [ex_level] st1 (ex_bar 2 108)
       = (st2, [m])
    /\ tick (ex_rsi 65) "X" "1m" false [ex_level] st2 (ex_bar 2 107)
       = (st3, [m])
    /\ length (bars st3) = length (bars st2)
    /\ prevClose (bars st3) = prevClose (bars st2)
    /\ isBelow (lastPrice st2) (ofZ 109) = true
    /\ isBelow (lastPrice st3) (ofZ 109) = true.
Proof.
  eexists _, _, _, _. split_and!; reflexivity.
Qed.

(** ** Hydration *)

Lemma eq_opt_true_eq (x y : option num) : eq_opt x y = true -> x = y.
Proof.
  destruct x as [a|], y as [b|]; try discriminate; [|done].
  intros H. f_equal. by apply eq_true_eq.
Qed.

Lemma eq_opt_refl (x : option num) : x <> Some NaN -> eq_opt x x = true.
Proof.
  destruct x as [[q| | |]|]; try done.
  intros _. by apply eq_Fin.
Qed.

(** The three ways of [hydrate_line]: a level with a price is kept, a
    level without one takes the computed price when it is a finite
    number, and is kept otherwise. *)
Lemma hydrate_line_cases (range lo : option num) (last : option Bar)
    (ln : FibLevel) :
  (price ln <> None -> hydrate_line range lo last ln = ln)
  /\ (forall p : num,
      price ln = None -> getLinePrice ln range lo last = Some p ->
      isFinite p = true ->
      hydrate_line range lo last ln = with_price ln (Some p))
  /\ (hydrate_line range lo last ln <> ln ->
      price ln = None
      /\ exists p : num,
           getLinePrice ln range lo last = Some p /\ isFinite p = true
           /\ hydrate_line range lo last ln = with_price ln (Some p)).
Proof.
  unfold hydrate_line. split_and!.
  - intros H. by destruct (price ln).
  - intros p Hp Hg Hf. by rewrite Hp, Hg, Hf.
  - intros H. destruct (price ln) as [q|] eqn:Hp; [done|].
    split; [done|].
    destruct (getLinePrice ln range lo last) as [p|]; [|done].
    destruct (isFinite p) eqn:Hf; [|done]. by exists p.
Qed.

Lemma hydrate_line_idem (range lo : option num) (last : option Bar)
    (ln : FibLevel) :
  hydrate_line range lo last (hydrate_line range lo last ln)
  = hydrate_line range lo last ln.
Proof.
  assert (H : hydrate_line range lo last ln = ln
              \/ exists p : num,
                   hydrate_line range lo last ln = with_price ln (Some p)).
  { unfold hydrate_line. destruct (price ln); [by left|].
    destruct (getLinePrice ln range lo last) as [p|]; [|by left].
    destruct (isFinite p); [right; by exists p | by left]. }
  destruct H as [H | [p H]]; rewrite H; [exact H | reflexivity].
Qed.

Lemma hydrate_line_price_ok (range lo : option num) (last : option Bar)
    (ln : FibLevel) :
  stored_price_ok ln -> stored_price_ok (hydrate_line range lo last ln).
Proof.
  unfold stored_price_ok, hydrate_line. intros Hok.
  destruct (price ln) as [q|] eqn:Hp; [by rewrite Hp|].
  destruct (getLinePrice ln range lo last) as [p|]; [|by rewrite Hp].
  destruct (isFinite p) eqn:Hf; [|by rewrite Hp].
  simpl. intros [= ->]. discriminate.
Qed.

Lemma changed_true (fibLines fl : list FibLevel) :
  changed fibLines fl = true <->
  exists (i : nat) (old new : FibLevel),
    fibLines !! i = Some old /\ fl !! i = Some new
    /\ eq_opt (price new) (price old) = false.
Proof.
  unfold changed. rewrite existsb_exists. split.
  - intros (b & Hin & ->). apply list_elem_of_In in Hin.
    apply elem_of_lookup_imap_1 in Hin as (i & new & Hf & Hnew).
    destruct (fibLines !! i) as [old|] eqn:Hold; [|discriminate].
    exists i, old, new. split; [done|]. split; [done|].
    symmetry in Hf. by apply negb_true_iff in Hf.
  - intros (i & old & new & Hold & Hnew & He). exists true. split; [|done].
    apply list_elem_of_In.
    apply elem_of_lookup_imap. exists i, new. split; [|done].
    by rewrite Hold, He.
Qed.

Lemma filled_lookup (fibLines : list FibLevel) (bs : list Bar) (i : nat) :
  filled fibLines bs !! i
  = hydrate_line (window_range bs) (window_lo bs) (window_last bs)
      <$> fibLines !! i.
Proof. unfold filled. apply list_lookup_fmap. Qed.

Lemma changed_same (fl : list FibLevel) :
  Forall stored_price_ok fl -> changed fl fl = false.
Proof.
  intros Hok. apply not_true_iff_false. intros H.
  apply changed_true in H as (i & old & new & Ho & Hn & He).
  rewrite Ho in Hn. injection Hn as <-.
  rewrite eq_opt_refl in He; [discriminate|].
  by eapply (Forall_lookup_1 stored_price_ok).
Qed.

(** the guard of the hydration step holds as soon as a level could be
    given a price *)
Lemma hydrate_guard (ln : FibLevel) (bs : list Bar) (p : num) :
  price ln = None ->
  getLinePrice ln (window_range bs) (window_lo bs) (window_last bs) = Some p ->
  bool_decide (is_Some (window_range bs))
  || bool_decide (is_Some (window_last bs)) = true.
Proof.
  intros Hp Hg. unfold getLinePrice in Hg. rewrite Hp in Hg.
  destruct (window_range bs) as [rg|]; [done|].
  destruct (window_last bs) as [b|]; [done|]. discriminate.
Qed.

Lemma filled_idem (fibLines : list FibLevel) (bs : list Bar) :
  filled (filled fibLines bs) bs = filled fibLines bs.
Proof.
  unfold filled. rewrite map_map. apply map_ext. intros ln.
  apply hydrate_line_idem.
Qed.

Lemma filled_price_ok (fibLines : list FibLevel) (bs : list Bar) :
  Forall stored_price_ok fibLines ->
  Forall stored_price_ok (filled fibLines bs).
Proof.
  intros H. unfold filled. apply Forall_fmap.
  eapply Forall_impl; [exact H|]. intros ln. apply hydrate_line_price_ok.
Qed.

Lemma hydrate_cases (sym : string) (fibLines : list FibLevel)
    (bs : list Bar) :
  hydrate sym fibLines bs = []
  \/ (hydrate sym fibLines bs = [(sym, filled fibLines bs)]
      /\ changed fibLines (filled fibLines bs) = true).
Proof.
  unfold hydrate.
  destruct (negb (Nat.eqb (length fibLines) 0)
            && (bool_decide (is_Some (window_range bs))
                || bool_decide (is_Some (window_last bs)))); [|by left].
  destruct (changed fibLines (filled fibLines bs)); [by right | by left].
Qed.

(** C5 (hydration preserves overrides).  The filled list has the length
    of the level list; a level with a stored price is kept as it is; a
    level is changed only when its stored price is null and the
    resolver gives a finite number, and it is then the level with that
    price and nothing else changed.  One run of the step calls the
    update callback at most once, with the filled list; when no stored
    price is [NaN] it calls it exactly when the price of some level has
    changed, and the run on the list so updated calls nothing. *)
Theorem hydration_preserves_overrides (sym : string)
    (fibLines : list FibLevel) (bs : list Bar) :
  length (filled fibLines bs) = length fibLines
  /\ (forall (i : nat) (ln : FibLevel), fibLines !! i = Some ln ->
      exists ln' : FibLevel,
        filled fibLines bs !! i = Some ln'
        /\ (price ln <> None -> ln' = ln)
        /\ (ln' <> ln ->
            price ln = None
            /\ exists p : num,
                 resolve ln bs = Some p /\ isFinite p = true
                 /\ ln' = with_price ln (Some p))
        /\ (forall p : num,
            price ln = None -> resolve ln bs = Some p ->
            isFinite p = true -> ln' = with_price ln (Some p)))
  /\ (hydrate sym fibLines bs = []
      \/ hydrate sym fibLines bs = [(sym, filled fibLines bs)])
  /\ (Forall stored_price_ok fibLines ->
      (hydrate sym fibLines bs = [(sym, filled fibLines bs)] <->
       exists (i : nat) (ln ln' : FibLevel),
         fibLines !! i = Some ln /\ filled fibLines bs !! i = Some ln'
         /\ price ln' <> price ln))
  /\ (Forall stored_price_ok fibLines ->
      hydrate sym (filled fibLines bs) bs = [])
  /\ (forall perSymFib : gmap string (list FibLevel),
      apply_updates (hydrate sym fibLines bs) perSymFib = perSymFib
      \/ apply_updates (hydrate sym fibLines bs) perSymFib
         = <[sym := filled fibLines bs]> perSymFib).
Proof.
  split_and!.
  - unfold filled. apply length_map.
  - intros i ln Hln. eexists. rewrite filled_lookup, Hln.
    split; [reflexivity|].
    destruct (hydrate_line_cases (window_range bs) (window_lo bs)
                (window_last bs) ln) as (H1 & H2 & H3).
    split; [exact H1|]. split; [exact H3|].
    intros p Hp Hr Hf. by apply H2.
  - destruct (hydrate_cases sym fibLines bs) as [H | [H _]]; eauto.
  - intros Hok. split.
    + intros H. destruct (hydrate_cases sym fibLines bs) as [H' | [_ Hc]].
      { rewrite H' in H. discriminate. }
      apply changed_true in Hc as (i & old & new & Ho & Hn & He).
      exists i, old, new. split; [done|]. split; [done|].
      intros Heq. rewrite Heq, eq_opt_refl in He; [discriminate|].
      by eapply (Forall_lookup_1 stored_price_ok).
    + intros (i & ln & ln' & Hln & Hln' & Hne).
      rewrite filled_lookup, Hln in Hln'. injection Hln' as <-.
      destruct (hydrate_line_cases (window_range bs) (window_lo bs)
                  (window_last bs) ln) as (_ & _ & H3).
      destruct H3 as (Hp & p & Hg & Hf & Hh); [congruence|].
      assert (Hc : changed fibLines (filled fibLines bs) = true).
      { apply changed_true. exists i, ln, (with_price ln (Some p)).
        split; [done|].
        split; [rewrite filled_lookup, Hln; simpl; by rewrite Hh|].
        by rewrite Hp. }
      unfold hydrate. rewrite (hydrate_guard ln bs p Hp Hg), Hc.
      apply lookup_lt_Some in Hln.
      by destruct fibLines; [simpl in Hln; lia|].
  - intros Hok. unfold hydrate. rewrite filled_idem.
    rewrite changed_same by (by apply filled_price_ok).
    by destruct (_ && _).
  - intros perSymFib.
    destruct (hydrate_cases sym fibLines bs) as [-> | [-> _]];
      [by left | by right].
Qed.

(** A list of two levels on a single bar: the level without price is
    given the resolved price 10, the level with the price 109 is kept,
    and the callback is called once. *)
Lemma hydration_preserves_overrides_witness :
  hydrate "X" [with_price ex_level None; ex_level] [ex_bar 1 10]
  = [("X"%string, filled [with_price ex_level None; ex_level] [ex_bar 1 10])]
  /\ filled [with_price ex_level None; ex_level] [ex_bar 1 10] !! 1%nat
     = Some ex_level.
Proof.
  split.
  - apply (proj1 (proj2 (proj2 (proj2
             (hydration_preserves_overrides "X"
                [with_price ex_level None; ex_level] [ex_bar 1 10]))))).
    + repeat constructor; discriminate.
    + exists 0%nat, (with_price ex_level None),
        (hydrate_line (window_range [ex_bar 1 10]) (window_lo [ex_bar 1 10])
           (window_last [ex_bar 1 10]) (with_price ex_level None)).
      split; [reflexivity|]. split; [reflexivity|]. discriminate.
  - destruct (proj1 (proj2 (hydration_preserves_overrides "X"
                [with_price ex_level None; ex_level] [ex_bar 1 10]))
                1%nat ex_level eq_refl) as (ln' & Hl & Hkeep & _).
    rewrite Hl. f_equal. apply Hkeep. discriminate.
Defined.

(** ** Snapping *)

Lemma le_refl_fin (x : num) : isFinite x = true -> Js.le x x = true.
Proof. intros Hx. fin_cases. apply le_Fin, Qcle_refl. Qed.

Lemma lt_false_le (x y : num) :
  isFinite x = true -> isFinite y = true ->
  Js.lt x y = false -> Js.le y x = true.
Proof.
  intros Hx Hy H. fin_cases. apply le_Fin. by apply lt_Fin_false.
Qed.

Lemma lt_le_trans_fin (x y z : num) :
  isFinite x = true -> isFinite y = true -> isFinite z = true ->
  Js.lt x y = true -> Js.le y z = true -> Js.le x z = true.
Proof.
  intros Hx Hy Hz H1 H2. fin_cases.
  apply lt_Fin in H1. apply le_Fin in H2. apply le_Fin.
  apply Qclt_le_weak. by eapply Qclt_le_trans.
Qed.

Lemma lt_PosInf_fin (x : num) : isFinite x = true -> Js.lt x PosInf = true.
Proof. intros Hx. by fin_cases. Qed.

Lemma dist_finite (p : num) (s : Snap) :
  isFinite p = true -> finite_snap s -> isFinite (dist p s) = true.
Proof.
  unfold finite_snap, dist. destruct p, (sprice s); try discriminate. done.
Qed.

#[local] Hint Resolve le_refl_fin lt_false_le lt_PosInf_fin dist_finite : js.

Lemma nearest_step_inv (p : num) (seen : list Snap)
    (acc : option Snap * num) (s : Snap) :
  isFinite p = true -> Forall finite_snap seen -> finite_snap s ->
  nearest_inv p seen acc ->
  nearest_inv p (seen ++ [s]) (nearest_step p acc s).
Proof.
  intros Hp Hseen Hs Hinv. unfold nearest_step. fold (dist p s).
  pose proof (dist_finite p s Hp Hs) as Hd.
  destruct acc as [[b|] dmin]; unfold nearest_inv in *; simpl in *.
  - destruct Hinv as (Hb & -> & Hmin).
    assert (Hdb : isFinite (dist p b) = true).
    { apply dist_finite; [done|].
      by apply (proj1 (Forall_forall finite_snap seen) Hseen). }
    destruct (Js.lt (dist p s) (dist p b)) eqn:Hlt; simpl.
    + split; [apply elem_of_app; right; by apply list_elem_of_singleton|].
      split; [done|]. intros s' Hs'.
      apply elem_of_app in Hs' as [Hs' | Hs'].
      * apply (lt_le_trans_fin _ (dist p b)); try done.
        -- apply dist_finite; [done|].
           by apply (proj1 (Forall_forall finite_snap seen) Hseen).
        -- by apply Hmin.
      * apply list_elem_of_singleton in Hs' as ->. auto with js.
    + split; [apply elem_of_app; by left|]. split; [done|].
      intros s' Hs'. apply elem_of_app in Hs' as [Hs' | Hs'].
      * by apply Hmin.
      * apply list_elem_of_singleton in Hs' as ->. auto with js.
  - destruct Hinv as (-> & ->). rewrite lt_PosInf_fin by auto with js. simpl.
    split; [by apply list_elem_of_singleton|]. split; [done|].
    intros s' Hs'. apply list_elem_of_singleton in Hs' as ->. auto with js.
Qed.

Lemma nearest_fold_inv (p : num) (cands : list Snap) :
  isFinite p = true -> Forall finite_snap cands ->
  forall (seen : list Snap) (acc : option Snap * num),
    Forall finite_snap seen -> nearest_inv p seen acc ->
    nearest_inv p (seen ++ cands) (foldl (nearest_step p) acc cands).
Proof.
  intros Hp Hc. induction Hc as [|s cands Hs Hc IH]; intros seen acc Hseen Hinv.
  - by rewrite app_nil_r.
  - simpl. rewrite (cons_middle s seen cands), app_assoc. apply IH.
    + apply Forall_app. split; [done|]. by constructor.
    + by apply nearest_step_inv.
Qed.

(** The candidate [nearestSnap] returns is one of the candidates and
    none is nearer. *)
Lemma nearestSnap_minimal (cands : list Snap) (p : num) :
  cands <> [] -> isFinite p = true -> Forall finite_snap cands ->
  nearestSnap cands p ∈ cands
  /\ forall s : Snap, s ∈ cands ->
       Js.le (dist p (nearestSnap cands p)) (dist p s) = true.
Proof.
  intros Hne Hp Hc.
  pose proof (nearest_fold_inv p cands Hp Hc [] (None, PosInf)
                (Forall_nil_2 _) (conj eq_refl eq_refl)) as Hinv.
  rewrite app_nil_l in Hinv. unfold nearestSnap, nearest_inv in *.
  destruct (fst (foldl (nearest_step p) (None, PosInf) cands)) as [b|].
  - destruct Hinv as (Hb & _ & Hmin). by split.
  - by destruct Hinv as [-> _].
Qed.

Lemma Math_max_finite (xs : list num) :
  Forall (fun x => isFinite x = true) xs -> xs <> [] ->
  isFinite (Math_max xs) = true.
Proof.
  induction 1 as [|x xs Hx Hxs IH]; [done|]. intros _.
  unfold Math_max in *. simpl. destruct xs as [|y ys].
  - simpl. by destruct x.
  - specialize (IH ltac:(done)).
    destruct x; try discriminate.
    destruct (foldr max2 NegInf (y :: ys)); try discriminate.
    unfold max2. by destruct (Js.lt _ _).
Qed.

Lemma Math_min_finite (xs : list num) :
  Forall (fun x => isFinite x = true) xs -> xs <> [] ->
  isFinite (Math_min xs) = true.
Proof.
  induction 1 as [|x xs Hx Hxs IH]; [done|]. intros _.
  unfold Math_min in *. simpl. destruct xs as [|y ys].
  - simpl. by destruct x.
  - specialize (IH ltac:(done)).
    destruct x; try discriminate.
    destruct (foldr min2 PosInf (y :: ys)); try discriminate.
    unfold min2. by destruct (Js.lt _ _).
Qed.

Lemma ratios_finite : Forall (fun r => isFinite r = true) ratios.
Proof. repeat constructor. Qed.

Lemma window_finite (bs : list Bar) :
  bs <> [] -> Forall finite_bar (window_look bs) ->
  exists rg lo : Qc,
    window_range bs = Some (Fin rg) /\ window_lo bs = Some (Fin lo).
Proof.
  intros Hne Hfin. destruct (window_hi_lo bs Hne) as [Hh Hl].
  assert (Hlook : window_look bs <> []) by (by rewrite window_look_nil).
  assert (H1 : isFinite (Math_max (map high (window_look bs))) = true).
  { apply Math_max_finite; [|by destruct (window_look bs)].
    apply Forall_fmap. eapply Forall_impl; [exact Hfin|]. by intros b [? ?]. }
  assert (H2 : isFinite (Math_min (map low (window_look bs))) = true).
  { apply Math_min_finite; [|by destruct (window_look bs)].
    apply Forall_fmap. eapply Forall_impl; [exact Hfin|]. by intros b [? ?]. }
  unfold window_range. rewrite Hh, Hl.
  destruct (Math_max (map high (window_look bs))) as [h| | |];
    try discriminate.
  destruct (Math_min (map low (window_look bs))) as [l| | |];
    try discriminate.
  by eexists _, _.
Qed.

Lemma snaps_finite (bs : list Bar) :
  Forall finite_bar (window_look bs) -> Forall finite_snap (snaps bs).
Proof.
  intros Hfin. unfold snaps. apply Forall_app. split.
  - destruct bs as [|b bs]; [by constructor|].
    destruct (window_finite (b :: bs)) as (rg & lo & -> & ->); [done..|].
    apply Forall_fmap. eapply Forall_impl; [exact ratios_finite|].
    intros r Hr. unfold finite_snap. simpl. by destruct r.
  - apply Forall_forall. intros s Hs. apply list_elem_of_In in Hs.
    apply in_flat_map in Hs as (b & Hb & Hs).
    apply list_elem_of_In in Hb.
    destruct (proj1 (Forall_forall finite_bar _) Hfin b Hb) as [Hh Hl].
    destruct Hs as [<- | [<- | []]]; done.
Qed.

Lemma snaps_nonempty (bs : list Bar) : bs <> [] -> snaps bs <> [].
Proof.
  intros Hne Hs. apply app_eq_nil in Hs as [_ Hs].
  destruct (window_look bs) as [|b l] eqn:Hl; [|discriminate].
  by apply (proj1 (window_look_nil bs)) in Hl.
Qed.

Lemma snaps_elem (bs : list Bar) (s : Snap) :
  s ∈ snaps bs <->
  (exists r rg lo : num,
      r ∈ ratios /\ window_range bs = Some rg /\ window_lo bs = Some lo
      /\ s = mkSnap (Some (SnapRatio r)) (lo + r * rg)%js)
  \/ (exists b : Bar,
         b ∈ window_look bs
         /\ (s = mkSnap (Some SnapHigh) (high b)
             \/ s = mkSnap (Some SnapLow) (low b))).
Proof.
  unfold snaps. rewrite elem_of_app.
  assert (H1 : forall P Q R T : Prop, (P <-> R) -> (Q <-> T) ->
                                      (P \/ Q <-> R \/ T)) by tauto.
  apply H1; clear H1.
  - destruct (window_range bs) as [rg|], (window_lo bs) as [lo|].
    + rewrite list_elem_of_fmap. split.
      * intros (r & -> & Hr). by exists r, rg, lo.
      * intros (r & rg' & lo' & Hr & [= <-] & [= <-] & ->). by exists r.
    + split; [by intros ?%elem_of_nil|]. intros (? & ? & ? & _ & _ & ? & _).
      discriminate.
    + split; [by intros ?%elem_of_nil|]. intros (? & ? & ? & _ & ? & _).
      discriminate.
    + split; [by intros ?%elem_of_nil|]. intros (? & ? & ? & _ & ? & _).
      discriminate.
  - rewrite list_elem_of_In, in_flat_map. split.
    + intros (b & Hb & Hs). exists b. split; [by apply list_elem_of_In|].
      destruct Hs as [<- | [<- | []]]; auto.
    + intros (b & Hb & Hs). exists b. split; [by apply list_elem_of_In|].
      destruct Hs as [-> | ->]; simpl; auto.
Qed.

Lemma find_is_id (i : string) (fibLines : list FibLevel) :
  (exists ln : FibLevel, ln ∈ fibLines /\ id ln = i) ->
  is_Some (List.find (is_id (Some i)) fibLines).
Proof.
  intros (ln & Hin & Hid).
  destruct (List.find (is_id (Some i)) fibLines) as [x|] eqn:Hf; [by eexists|].
  apply list_elem_of_In in Hin.
  pose proof (find_none _ _ Hf ln Hin) as Hn. simpl in Hn.
  apply String.eqb_neq in Hn. contradiction.
Qed.

(** C6 (unconditional nearest-candidate snapping).  The candidates are
    the ratio projections [low + r * range] of the eleven ratios and the
    high and the low of every bar of the window.  For a finite raw price
    and a non-empty set of finite candidates, [nearestSnap] returns a
    candidate whose distance to the raw price is at most that of every
    candidate, however far it is; a drag update writes its price into
    the dragged level and leaves the other levels as they are.  For the
    candidates 100, 105, 110 and the raw price 107 the snapped price is
    105. *)
Theorem unconditional_nearest_snap :
  (forall (cands : list Snap) (p : num),
      cands <> [] -> isFinite p = true -> Forall finite_snap cands ->
      nearestSnap cands p ∈ cands
      /\ forall s : Snap, s ∈ cands ->
           Js.le (Js.abs (sprice (nearestSnap cands p) - p)%js)
                 (Js.abs (sprice s - p)%js) = true)
  /\ (forall (bs : list Bar) (s : Snap),
      s ∈ snaps bs <->
      (exists r rg lo : num,
          r ∈ ratios /\ window_range bs = Some rg /\ window_lo bs = Some lo
          /\ s = mkSnap (Some (SnapRatio r)) (lo + r * rg)%js)
      \/ (exists b : Bar,
             b ∈ window_look bs
             /\ (s = mkSnap (Some SnapHigh) (high b)
                 \/ s = mkSnap (Some SnapLow) (low b))))
  /\ (forall (bs : list Bar) (p : num),
      bs <> [] -> Forall finite_bar (window_look bs) -> isFinite p = true ->
      nearestSnap (snaps bs) p ∈ snaps bs
      /\ forall s : Snap, s ∈ snaps bs ->
           Js.le (Js.abs (sprice (nearestSnap (snaps bs) p) - p)%js)
                 (Js.abs (sprice s - p)%js) = true)
  /\ (forall (sym : string) (dragging : Dragging) (fibLines : list FibLevel)
             (bs : list Bar) (p : num) (i : string),
      active dragging = true -> drag_id dragging = Some i ->
      (exists ln : FibLevel, ln ∈ fibLines /\ id ln = i) ->
      onShieldMove sym dragging fibLines bs (Some p)
      = [(sym, map (fun l => if String.eqb (id l) i
                             then with_price l
                                    (Some (sprice (nearestSnap (snaps bs) p)))
                             else l) fibLines)])
  /\ sprice (nearestSnap [mkSnap (Some SnapLow) (ofZ 100);
                          mkSnap (Some (SnapRatio (ofQ (1 # 2)))) (ofZ 105);
                          mkSnap (Some SnapHigh) (ofZ 110)] (ofZ 107))
     = ofZ 105.
Proof.
  split_and!.
  - intros cands p Hne Hp Hc. by apply nearestSnap_minimal.
  - apply snaps_elem.
  - intros bs p Hne Hfin Hp.
    apply (nearestSnap_minimal (snaps bs) p); [|done|].
    + by apply snaps_nonempty.
    + by apply snaps_finite.
  - intros sym dragging fibLines bs p i Ha Hi Hex.
    unfold onShieldMove. rewrite Ha, Hi. simpl negb. cbv iota.
    destruct (find_is_id i fibLines Hex) as [x ->]. reflexivity.
  - reflexivity.
Qed.

(** On one bar of high 110 and low 100 the raw price 107 snaps to a
    candidate at least as near as the high of the bar. *)
Lemma unconditional_nearest_snap_witness :
  Js.le (Js.abs (sprice (nearestSnap
                           (snaps [mkBar (ofZ 1) (ofZ 104) (ofZ 110) (ofZ 100)
                                         (ofZ 105) (ofZ 1)]) (ofZ 107))
                 - ofZ 107)%js)
        (Js.abs (ofZ 110 - ofZ 107)%js) = true.
Proof.
  apply (proj2 (proj1 (proj2 (proj2 unconditional_nearest_snap))
                  [mkBar (ofZ 1) (ofZ 104) (ofZ 110) (ofZ 100) (ofZ 105)
                         (ofZ 1)] (ofZ 107)
                  ltac:(discriminate)
                  ltac:(repeat constructor)
                  eq_refl)
           (mkSnap (Some SnapHigh) (ofZ 110))).
  apply list_elem_of_In. do 11 right. left. reflexivity.
Defined.

(** * Further properties *)

(** ** Moving average and VWAP *)

Lemma Qc_convex (lo hi c prev k : Qc) :
  0 <= k -> k <= 1 -> lo <= c -> c <= hi -> lo <= prev -> prev <= hi ->
  lo <= c * k + prev * (1 - k) /\ c * k + prev * (1 - k) <= hi.
Proof.
  intros Hk0 Hk1 H1 H2 H3 H4.
  assert (Hk : 0 <= 1 - k) by (by apply Qcle_minus_iff in Hk1).
  split.
  - replace lo with (lo * k + lo * (1 - k)) by ring.
    apply Qcplus_le_compat; by apply Qcmult_le_compat_r.
  - replace hi with (hi * k + hi * (1 - k)) by ring.
    apply Qcplus_le_compat; by apply Qcmult_le_compat_r.
Qed.

Lemma Qc_div_bounds (lo hi P V : Qc) :
  0 < V -> lo * V <= P -> P <= hi * V -> lo <= P / V /\ P / V <= hi.
Proof.
  intros HV H1 H2.
  assert (HV0 : V <> 0) by (intros ->; by apply Qclt_not_eq in HV).
  assert (HP : P / V * V = P) by (by field).
  split; apply (Qcmult_le_mono_pos_r _ _ V HV); by rewrite HP.
Qed.

Lemma div_Fin (a b : Qc) : b <> 0 -> (Fin a / Fin b)%js = Fin (a / b).
Proof.
  intros Hb. unfold Js.div. destruct (b ?= 0) eqn:Hc; try reflexivity.
  by apply Qceq_alt in Hc.
Qed.

Lemma ema_loop_shape (k : num) (rest : list Bar) :
  forall emaPrev : num,
    map ptime (ema_loop k rest emaPrev) = map time rest.
Proof.
  induction rest as [|b rest IH]; intros emaPrev; [reflexivity|].
  simpl. by rewrite IH.
Qed.

Lemma ema_loop_bounds (lo hi k : Qc) (rest : list Bar) :
  0 <= k -> k <= 1 ->
  Forall (fun b => in_range lo hi (close b)) rest ->
  forall prev : Qc, lo <= prev -> prev <= hi ->
    Forall (fun pt => in_range lo hi (value pt))
           (ema_loop (Fin k) rest (Fin prev)).
Proof.
  intros Hk0 Hk1 Hrest.
  induction Hrest as [|b rest (c & Hc & Hlo & Hhi) _ IH]; intros prev H1 H2.
  - constructor.
  - destruct (Qc_convex lo hi c prev k) as [H3 H4]; try done.
    cbn [ema_loop]. rewrite Hc.
    change (Fin c * Fin k + Fin prev * (ofZ 1 - Fin k))%js
      with (Fin (c * k + prev * (1 - k))).
    constructor.
    + by exists (c * k + prev * (1 - k)).
    + by apply IH.
Qed.

Lemma ema_k_range (period : Qc) :
  1 <= period ->
  (ofZ 2 / (Fin period + ofZ 1))%js = Fin (2 / (period + 1))
  /\ 0 <= 2 / (period + 1) /\ 2 / (period + 1) <= 1.
Proof.
  intros Hp.
  assert (H2 : (2 : Qc) <= period + 1).
  { change (2 : Qc) with (1 + 1). by apply Qcplus_le_compat. }
  assert (Hpos : 0 < period + 1).
  { eapply Qclt_le_trans; [|exact H2]. reflexivity. }
  split.
  - change (ofZ 2 / (Fin period + ofZ 1))%js
      with (Fin 2 / Fin (period + 1))%js.
    apply div_Fin. intros H. rewrite H in Hpos. by apply Qclt_not_eq in Hpos.
  - apply Qc_div_bounds; [done| |].
    + rewrite Qcmult_0_l. discriminate.
    + by rewrite Qcmult_1_l.
Qed.

(** X1 (EMA, shape and edge cases).  On an empty bar sequence and for a
    period of at most 0 the result is empty; otherwise the series has one
    point per bar with the timestamp of the bar, and its first value is
    the first close. *)
Theorem computeEMA_shape (bars : list Bar) (period : num) :
  computeEMA [] period = []
  /\ (Js.le period (ofZ 0) = true -> computeEMA bars period = [])
  /\ (Js.le period (ofZ 0) = false ->
      map ptime (computeEMA bars period) = map time bars
      /\ length (computeEMA bars period) = length bars
      /\ (value <$> computeEMA bars period !! 0%nat) = (close <$> bars !! 0%nat)).
Proof.
  split; [reflexivity|]. split.
  - intros H. destruct bars; [reflexivity|]. unfold computeEMA. by rewrite H.
  - intros H.
    assert (Ht : map ptime (computeEMA bars period) = map time bars).
    { destruct bars as [|b0 rest]; [reflexivity|].
      unfold computeEMA. rewrite H. cbn [map ptime]. f_equal.
      apply ema_loop_shape. }
    split; [exact Ht|]. split.
    + apply (f_equal length) in Ht. by rewrite !length_map in Ht.
    + destruct bars as [|b0 rest]; [reflexivity|].
      unfold computeEMA. by rewrite H.
Qed.

Lemma computeEMA_shape_witness :
  map ptime (computeEMA [ex_bar 1 10; ex_bar 2 12] (ofZ 9))
  = [ofZ 1; ofZ 2].
Proof.
  apply (proj1 (proj2 (proj2 (computeEMA_shape [ex_bar 1 10; ex_bar 2 12]
                                (ofZ 9))) eq_refl)).
Defined.

(** X2 (EMA stays between the closes).  For a finite period of at least
    1 and closes that are finite numbers between [lo] and [hi], every
    value of the EMA is a finite number between [lo] and [hi]; on a
    constant series the EMA is that constant. *)
Theorem computeEMA_bounds (bars : list Bar) (period lo hi : Qc) :
  1 <= period ->
  Forall (fun b => in_range lo hi (close b)) bars ->
  Forall (fun pt => in_range lo hi (value pt)) (computeEMA bars (Fin period))
  /\ (lo = hi ->
      Forall (fun pt => value pt = Fin lo) (computeEMA bars (Fin period))).
Proof.
  intros Hp Hbars.
  assert (H : Forall (fun pt => in_range lo hi (value pt))
                     (computeEMA bars (Fin period))).
  { destruct Hbars as [|b0 rest (c & Hc & Hlo & Hhi) Hrest]; [constructor|].
    unfold computeEMA.
    destruct (Js.le (Fin period) (ofZ 0)); [constructor|].
    destruct (ema_k_range period Hp) as (-> & Hk0 & Hk1).
    constructor; [by exists c|]. rewrite Hc. by apply ema_loop_bounds. }
  split; [exact H|]. intros <-.
  eapply Forall_impl; [exact H|]. intros pt (q & -> & H1 & H2).
  f_equal. by apply Qcle_antisym.
Qed.

Lemma computeEMA_bounds_witness :
  Forall (fun pt => in_range (Q2Qc 10) (Q2Qc 12) (value pt))
         (computeEMA [ex_bar 1 10; ex_bar 2 12; ex_bar 3 11] (ofZ 9)).
Proof.
  apply (computeEMA_bounds [ex_bar 1 10; ex_bar 2 12; ex_bar 3 11]
           (Q2Qc 9) (Q2Qc 10) (Q2Qc 12)).
  - discriminate.
  - repeat constructor.
    + exists (Q2Qc 10). repeat split; discriminate.
    + exists (Q2Qc 12). repeat split; discriminate.
    + exists (Q2Qc 11). repeat split; discriminate.
Defined.






Lemma or_zero_Fin (v : Qc) : or_zero (Fin v) = Fin v.
Proof.
  unfold or_zero. destruct (Js.eq (Fin v) (ofZ 0)) eqn:He; [|done].
  apply eq_true_eq in He. by rewrite He.
Qed.

Lemma vwap_loop_bounds (lo hi : Qc) (rest : list Bar) :
  Forall (fun b => in_range lo hi (typical b)
                   /\ exists v : Qc, volume b = Fin v /\ 0 <= v) rest ->
  forall P V : Qc, 0 <= V -> lo * V <= P -> P <= hi * V ->
    Forall (fun pt => in_range lo hi (value pt)) (vwap_loop rest (Fin P) (Fin V)).
Proof.
  induction 1 as [|b rest ((t & Ht & Hlo & Hhi) & v & Hv & Hv0) _ IH];
    intros P V HV H1 H2; [constructor|].
  cbn [vwap_loop]. rewrite Ht, Hv, or_zero_Fin.
  change (Fin P + Fin t * Fin v)%js with (Fin (P + t * v)).
  change (Fin V + Fin v)%js with (Fin (V + v)).
  assert (HV' : 0 <= V + v).
  { replace 0 with (0 + 0) by ring. by apply Qcplus_le_compat. }
  assert (H1' : lo * (V + v) <= P + t * v).
  { replace (lo * (V + v)) with (lo * V + lo * v) by ring.
    apply Qcplus_le_compat; [done|]. by apply Qcmult_le_compat_r. }
  assert (H2' : P + t * v <= hi * (V + v)).
  { replace (hi * (V + v)) with (hi * V + hi * v) by ring.
    apply Qcplus_le_compat; [done|]. by apply Qcmult_le_compat_r. }
  constructor; [|by apply IH]. cbn [value].
  destruct (Js.gt (Fin (V + v)) (ofZ 0)) eqn:Hgt.
  - apply (lt_Fin 0 (V + v)) in Hgt.
    rewrite div_Fin by (intros H0; rewrite H0 in Hgt; by apply Qclt_not_eq in Hgt).
    exists ((P + t * v) / (V + v)). split; [done|].
    by apply Qc_div_bounds.
  - by exists t.
Qed.

(** X4 (VWAP stays between the typical prices).  For bars of finite,
    non-negative volume whose typical prices are finite numbers between
    [lo] and [hi], every value of the VWAP is a finite number between
    [lo] and [hi]. *)
Theorem computeVWAP_bounds (bars : list Bar) (lo hi : Qc) :
  Forall (fun b => in_range lo hi (typical b)
                   /\ exists v : Qc, volume b = Fin v /\ 0 <= v) bars ->
  Forall (fun pt => in_range lo hi (value pt)) (computeVWAP bars).
Proof.
  intros H. unfold computeVWAP. apply (vwap_loop_bounds lo hi bars H 0 0).
  - apply Qcle_refl.
  - rewrite Qcmult_0_r. apply Qcle_refl.
  - rewrite Qcmult_0_r. apply Qcle_refl.
Qed.

Lemma computeVWAP_bounds_witness :
  Forall (fun pt => in_range (Q2Qc 10) (Q2Qc 12) (value pt))
         (computeVWAP [ex_bar 1 10; ex_bar 2 12]).
Proof.
  apply (computeVWAP_bounds [ex_bar 1 10; ex_bar 2 12] (Q2Qc 10) (Q2Qc 12)).
  repeat constructor.
  - exists (Q2Qc 10). split; [|split; discriminate].
    vm_compute. f_equal. by apply Qc_is_canon.
  - exists (Q2Qc 1). split; [reflexivity | discriminate].
  - exists (Q2Qc 12). split; [|split; discriminate].
    vm_compute. f_equal. by apply Qc_is_canon.
  - exists (Q2Qc 1). split; [reflexivity | discriminate].
Defined.

(** ** Heikin-Ashi candles *)

Lemma add_finite (x y : num) :
  isFinite x = true -> isFinite y = true -> isFinite (x + y)%js = true.
Proof. intros Hx Hy. by fin_cases. Qed.

Lemma div_finite (x : num) (z : Z) :
  z <> 0%Z -> isFinite x = true -> isFinite (x / ofZ z)%js = true.
Proof.
  intros Hz Hx. fin_cases. unfold ofZ. rewrite div_Fin; [done|].
  intros H. apply (f_equal (fun q => Qfloor (this q))) in H.
  rewrite Qfloor_ofZ in H. by vm_compute in H.
Qed.

Lemma max2_finite (x y : num) :
  isFinite x = true -> isFinite y = true ->
  isFinite (max2 x y) = true
  /\ Js.le x (max2 x y) = true /\ Js.le y (max2 x y) = true.
Proof.
  intros Hx Hy. fin_cases. unfold max2.
  destruct (Js.lt (Fin q0) (Fin q)) eqn:Hlt.
  - split; [done|]. split; [|by apply le_refl_fin].
    apply le_Fin, Qclt_le_weak. by apply lt_Fin.
  - split; [done|]. split; [by apply le_refl_fin|].
    by apply lt_false_le.
Qed.

Lemma min2_finite (x y : num) :
  isFinite x = true -> isFinite y = true ->
  isFinite (min2 x y) = true
  /\ Js.le (min2 x y) x = true /\ Js.le (min2 x y) y = true.
Proof.
  intros Hx Hy. fin_cases. unfold min2.
  destruct (Js.lt (Fin q) (Fin q0)) eqn:Hlt.
  - split; [done|]. split; [|by apply le_refl_fin].
    apply le_Fin, Qclt_le_weak. by apply lt_Fin.
  - split; [done|]. split; [by apply le_refl_fin|].
    by apply lt_false_le.
Qed.

Lemma le_trans_fin (x y z : num) :
  isFinite x = true -> isFinite y = true -> isFinite z = true ->
  Js.le x y = true -> Js.le y z = true -> Js.le x z = true.
Proof.
  intros Hx Hy Hz H1 H2. fin_cases.
  apply le_Fin in H1. apply le_Fin in H2. apply le_Fin.
  by eapply Qcle_trans.
Qed.

(** the candle [toHeikinAshi] builds from a high, a low, an open and a
    close that are finite *)
Lemma ha_candle (h l o c : num) :
  isFinite h = true -> isFinite l = true ->
  isFinite o = true -> isFinite c = true ->
  isFinite (Math_max [h; o; c]) = true
  /\ isFinite (Math_min [l; o; c]) = true
  /\ Js.le (Math_min [l; o; c]) o = true
  /\ Js.le o (Math_max [h; o; c]) = true
  /\ Js.le (Math_min [l; o; c]) c = true
  /\ Js.le c (Math_max [h; o; c]) = true.
Proof.
  intros Hh Hl Ho Hc. unfold Math_max, Math_min. cbn [foldr].
  assert (Hc1 : max2 c NegInf = c) by (by destruct c).
  assert (Hc2 : min2 c PosInf = c) by (by destruct c).
  rewrite Hc1, Hc2.
  destruct (max2_finite o c Ho Hc) as (F1 & A1 & B1).
  destruct (max2_finite h (max2 o c) Hh F1) as (F2 & A2 & B2).
  destruct (min2_finite o c Ho Hc) as (F3 & A3 & B3).
  destruct (min2_finite l (min2 o c) Hl F3) as (F4 & A4 & B4).
  split; [done|]. split; [done|]. split_and!.
  - by apply (le_trans_fin _ (min2 o c)).
  - by apply (le_trans_fin _ (max2 o c)).
  - by apply (le_trans_fin _ (min2 o c)).
  - by apply (le_trans_fin _ (max2 o c)).
Qed.

(** X5 (Heikin-Ashi candles are well formed).  On bars of finite open,
    high, low and close, every transformed bar has finite values, and
    its open and its close lie between its low and its high, whatever
    the order of the values of the input bars. *)
Theorem heikin_ashi_well_formed (bars : list Bar) :
  Forall finite_ohlc bars ->
  Forall (fun h => finite_ohlc h /\ well_formed_candle h) (toHeikinAshi bars).
Proof.
  induction bars as [|b l IH] using rev_ind; intros Hfin; [constructor|].
  apply Forall_app in Hfin. destruct Hfin as [Hl Hb].
  apply (proj1 (Forall_singleton _ _)) in Hb.
  unfold finite_ohlc in Hb. destruct Hb as (Ho & Hh & Hlo & Hc).
  specialize (IH Hl).
  rewrite toHeikinAshi_snoc.
  destruct (ha_push_snoc (toHeikinAshi l) b)
    as (h & -> & _ & _ & Hc' & Ho' & Hhi' & Hlo').
  apply Forall_app. split; [exact IH|]. apply Forall_singleton.
  assert (Fc : isFinite (close h) = true).
  { rewrite Hc'. apply div_finite; [done|]. by repeat apply add_finite. }
  assert (Fo : isFinite (open h) = true).
  { rewrite Ho'. destruct (last (toHeikinAshi l)) as [prev|] eqn:Hlast.
    - apply last_Some in Hlast as [l' Hl'].
      rewrite Hl' in IH. apply Forall_app in IH. destruct IH as [_ IH].
      apply (proj1 (Forall_singleton _ _)) in IH. simpl in IH.
      destruct IH as [Hf _].
      unfold finite_ohlc in Hf. destruct Hf as (Fo & _ & _ & Fc').
      apply div_finite; [done|]. by apply add_finite.
    - apply div_finite; [done|]. by apply add_finite. }
  destruct (ha_candle (high b) (low b) (open h) (close h) Hh Hlo Fo Fc)
    as (F1 & F2 & A & B & C & D).
  rewrite <- Hhi' in *. rewrite <- Hlo' in *.
  split; [by repeat split|]. by repeat split.
Qed.

(** an input bar whose high is below its low still gives a candle whose
    body lies between its low and its high *)
Lemma heikin_ashi_well_formed_witness :
  Forall (fun h => finite_ohlc h /\ well_formed_candle h)
         (toHeikinAshi [mkBar (ofZ 1) (ofZ 10) (ofZ 8) (ofZ 11) (ofZ 12)
                              (ofZ 1)]).
Proof.
  apply (heikin_ashi_well_formed
           [mkBar (ofZ 1) (ofZ 10) (ofZ 8) (ofZ 11) (ofZ 12) (ofZ 1)]).
  repeat constructor.
Defined.

(** ** The bar buffer under the feed *)

Lemma upsert_cases (prev : list Bar) (bar : Bar) :
  (exists (pre : list Bar) (l : Bar),
      prev = pre ++ [l] /\ Js.eq (time l) (time bar) = true
      /\ upsert prev bar = pre ++ [bar])
  \/ ((forall l : Bar, last prev = Some l ->
                       Js.eq (time l) (time bar) = false)
      /\ upsert prev bar = prev ++ [bar]).
Proof.
  destruct (last prev) as [l|] eqn:Hl.
  - destruct (Js.eq (time l) (time bar)) eqn:He.
    + left. apply last_Some in Hl as [pre ->]. exists pre, l.
      split; [done|]. split; [done|]. by apply upsert_same_bucket.
    + right. split; [by intros l' [= <-]|].
      unfold upsert. by rewrite Hl, He.
  - right. split; [discriminate|]. unfold upsert. by rewrite Hl.
Qed.

(** X6 (upsert).  A live bar either replaces the last bar, when both
    carry the same time, or is pushed: the buffer never shrinks, ends
    with the new bar, and keeps every bar before the last one. *)
Theorem upsert_buffer (prev : list Bar) (bar : Bar) :
  last (upsert prev bar) = Some bar
  /\ ((exists (pre : list Bar) (l : Bar),
          prev = pre ++ [l] /\ Js.eq (time l) (time bar) = true
          /\ upsert prev bar = pre ++ [bar])
      \/ ((forall l : Bar, last prev = Some l ->
                           Js.eq (time l) (time bar) = false)
          /\ upsert prev bar = prev ++ [bar]))
  /\ (length prev <= length (upsert prev bar) <= S (length prev))%nat
  /\ (forall i : nat, (S i < length prev)%nat ->
      upsert prev bar !! i = prev !! i).
Proof.
  split; [apply upsert_last|].
  split; [apply upsert_cases|].
  destruct (upsert_cases prev bar) as [(pre & l & -> & _ & ->) | [_ ->]].
  - split; [rewrite !length_app; simpl; lia|].
    intros i Hi. rewrite length_app in Hi. simpl in Hi.
    by rewrite !lookup_app_l by lia.
  - split; [rewrite length_app; simpl; lia|].
    intros i Hi. by rewrite lookup_app_l by lia.
Qed.

Lemma upsert_buffer_witness :
  upsert [ex_bar 1 110; ex_bar 2 108] (ex_bar 2 107) !! 0%nat
  = [ex_bar 1 110; ex_bar 2 108] !! 0%nat.
Proof.
  apply (proj2 (proj2 (proj2 (upsert_buffer [ex_bar 1 110; ex_bar 2 108]
                                (ex_bar 2 107))))).
  apply le_n.
Defined.

Lemma ascending_snoc (pre : list Bar) (x : Bar) :
  ascending_times (pre ++ [x]) <->
  ascending_times pre
  /\ (forall a : Bar, last pre = Some a -> Js.lt (time a) (time x) = true).
Proof.
  unfold ascending_times. split.
  - intros H. split.
    + intros i a b Ha Hb. apply (H i a b).
      * rewrite lookup_app_l; [done|]. by eapply lookup_lt_Some.
      * rewrite lookup_app_l; [done|]. by eapply lookup_lt_Some.
    + intros a Ha. rewrite last_lookup in Ha.
      destruct pre as [|p pre'] eqn:Hp; [discriminate|]. rewrite <- Hp in *.
      assert (Hlen : (0 < length pre)%nat) by (rewrite Hp; simpl; lia).
      apply (H (pred (length pre)) a x).
      * rewrite lookup_app_l by lia. done.
      * replace (S (pred (length pre))) with (length pre) by lia.
        by apply list_lookup_middle.
  - intros [H1 H2] i a b Ha Hb.
    destruct (decide (S i < length pre)%nat) as [Hlt|Hge].
    + rewrite lookup_app_l in Ha by lia. rewrite lookup_app_l in Hb by lia.
      by apply (H1 i a b).
    + assert (S i = length pre) as Hi.
      { apply lookup_lt_Some in Hb. rewrite length_app in Hb. simpl in Hb. lia. }
      rewrite Hi, list_lookup_middle in Hb by done. injection Hb as <-.
      rewrite lookup_app_l in Ha by lia.
      apply H2. rewrite last_lookup. by rewrite <- Hi.
Qed.

(** X7 (time order of the buffer).  When the bars are in strictly
    ascending time and the live bar is not older than the last bar, the
    buffer after the update is in strictly ascending time: no two bars
    share a time. *)
Theorem upsert_ascending (prev : list Bar) (bar : Bar) :
  ascending_times prev ->
  (forall l : Bar, last prev = Some l ->
     Js.lt (time l) (time bar) = true \/ Js.eq (time l) (time bar) = true) ->
  ascending_times (upsert prev bar).
Proof.
  intros Hasc Hnew.
  destruct (upsert_cases prev bar)
    as [(pre & l & -> & He & ->) | [Hne ->]].
  - apply ascending_snoc in Hasc as [Hpre Hl].
    apply ascending_snoc. split; [done|].
    intros a Ha. apply eq_true_eq in He. rewrite <- He. by apply Hl.
  - apply ascending_snoc. split; [done|]. intros a Ha.
    destruct (Hnew a Ha) as [H | H]; [done|].
    rewrite (Hne a Ha) in H. discriminate.
Qed.

Lemma upsert_ascending_witness :
  ascending_times (upsert [ex_bar 1 110; ex_bar 2 108] (ex_bar 3 112)).
Proof.
  apply (upsert_ascending [ex_bar 1 110; ex_bar 2 108] (ex_bar 3 112)).
  - intros [|[|i]] a b Ha Hb; try discriminate.
    injection Ha as <-. injection Hb as <-. reflexivity.
  - intros l [= <-]. left. reflexivity.
Defined.

Lemma price_in_sync_step (rsiCalc : list num -> list num) (st : ChartState)
    (ev : FeedEvent) :
  price_in_sync st -> price_in_sync (feed_step rsiCalc st ev).
Proof.
  intros Hinv l Hl. destruct ev as [b|bar]; simpl in *.
  - by rewrite Hl.
  - rewrite upsert_last in Hl. by injection Hl as <-.
Qed.

(** X8 (the last price follows the buffer).  From the initial state,
    after any sequence of historical loads and live messages, the last
    price is the close of the last bar whenever the buffer holds a bar,
    so the alert effect compares that close with the levels; and a live
    message always leaves a buffer that holds a bar. *)
Theorem feed_price_in_sync (rsiCalc : list num -> list num)
    (evs : list FeedEvent) :
  price_in_sync (run_feed rsiCalc initialState evs)
  /\ (forall (l : Bar) (level : num),
      last (bars (run_feed rsiCalc initialState evs)) = Some l ->
      isBelow (lastPrice (run_feed rsiCalc initialState evs)) level
      = Js.lt (close l) level)
  /\ (forall bar : Bar,
      bars (run_feed rsiCalc initialState (evs ++ [Live bar])) <> []).
Proof.
  assert (Hinv : forall evs st, price_in_sync st ->
                                price_in_sync (run_feed rsiCalc st evs)).
  { clear evs. intros evs. induction evs as [|ev evs IH]; intros st Hst.
    - exact Hst.
    - simpl. apply IH. by apply price_in_sync_step. }
  assert (H0 : price_in_sync initialState) by (intros l Hl; discriminate).
  split; [by apply Hinv|]. split.
  - intros l level Hl. unfold isBelow.
    by rewrite (Hinv evs initialState H0 l Hl).
  - intros bar. unfold run_feed. rewrite foldl_app. simpl.
    intros H. apply (f_equal last) in H. rewrite upsert_last in H.
    discriminate.
Qed.

Lemma feed_price_in_sync_witness :
  isBelow (lastPrice (run_feed (ex_rsi 65) initialState
                        [Loaded [ex_bar 1 110]; Live (ex_bar 2 108)]))
          (ofZ 109)
  = Js.lt (close (ex_bar 2 108)) (ofZ 109).
Proof.
  apply (proj1 (proj2 (feed_price_in_sync (ex_rsi 65)
                         [Loaded [ex_bar 1 110]; Live (ex_bar 2 108)]))
           (ex_bar 2 108) (ofZ 109)).
  reflexivity.
Defined.

(** ** Hit test and drag *)

Lemma lt_trans_num (x y z : num) :
  Js.lt x y = true -> Js.lt y z = true -> Js.lt x z = true.
Proof.
  destruct x as [a| | |], y as [b| | |], z as [c| | |];
    try discriminate; try reflexivity.
  intros H1 H2. apply lt_Fin in H1. apply lt_Fin in H2. apply lt_Fin.
  by eapply Qclt_trans.
Qed.

Lemma lt_irrefl_num (x : num) : Js.lt x x = false.
Proof.
  destruct x as [a| | |]; try reflexivity.
  apply lt_Fin_false, Qcle_refl.
Qed.

Lemma hit_step_inv (priceToY : num -> option num) (bs : list Bar)
    (e : MouseEvent) (rect : Rect) (seen : list FibLevel)
    (acc : option FibLevel * num) (ln : FibLevel) :
  hit_inv priceToY bs e rect seen acc ->
  hit_inv priceToY bs e rect (seen ++ [ln])
          (hit_step priceToY bs e rect acc ln).
Proof.
  intros [Hbest Hmin]. unfold hit_step.
  assert (Hkeep : (enabled ln = true -> forall yy, line_y priceToY bs ln = Some yy ->
                   isFinite yy = true ->
                   Js.lt (hit_dy e rect yy) (snd acc) = false) ->
                  hit_inv priceToY bs e rect (seen ++ [ln]) acc).
  { intros Hln. split.
    - destruct (fst acc) as [t|]; [|done].
      destruct Hbest as (Ht & He & Hy). split; [|done].
      apply elem_of_app. by left.
    - intros l yy Hl He Hy Hf. apply elem_of_app in Hl as [Hl | Hl].
      + by apply (Hmin l yy).
      + apply list_elem_of_singleton in Hl as ->. by apply Hln. }
  destruct (enabled ln) eqn:He; simpl; [|by apply Hkeep].
  destruct (line_y priceToY bs ln) as [yy|] eqn:Hy; [|by apply Hkeep].
  destruct (isFinite yy) eqn:Hf; simpl.
  2:{ apply Hkeep. intros _ yy' [= <-] Hf'. congruence. }
  destruct (Js.lt (hit_dy e rect yy) (snd acc)) eqn:Hlt.
  2:{ apply Hkeep. by intros _ yy' [= <-] _. }
  split; simpl.
  - split; [apply elem_of_app; right; by apply list_elem_of_singleton|].
    split; [done|]. by exists yy.
  - intros l yy' Hl He' Hy' Hf'. apply elem_of_app in Hl as [Hl | Hl].
    + destruct (Js.lt (hit_dy e rect yy') (hit_dy e rect yy)) eqn:Hlt'; [|done].
      rewrite <- (Hmin l yy' Hl He' Hy' Hf').
      symmetry. by apply (lt_trans_num _ (hit_dy e rect yy)).
    + apply list_elem_of_singleton in Hl as ->.
      rewrite Hy in Hy'. injection Hy' as <-. apply lt_irrefl_num.
Qed.

Lemma hit_fold_inv (priceToY : num -> option num) (bs : list Bar)
    (e : MouseEvent) (rect : Rect) (fibLines : list FibLevel) :
  forall (seen : list FibLevel) (acc : option FibLevel * num),
    hit_inv priceToY bs e rect seen acc ->
    hit_inv priceToY bs e rect (seen ++ fibLines)
            (foldl (hit_step priceToY bs e rect) acc fibLines).
Proof.
  induction fibLines as [|ln lns IH]; intros seen acc Hinv.
  - by rewrite app_nil_r.
  - simpl. rewrite (cons_middle ln seen lns), app_assoc. apply IH.
    by apply hit_step_inv.
Qed.

Lemma hitTest_Some (priceToY : num -> option num)
    (fibLines : list FibLevel) (bs : list Bar) (e : MouseEvent) (rect : Rect)
    (t : FibLevel) :
  hitTestLineByMouse priceToY fibLines bs e rect = Some t ->
  Js.ge (clientX e) (rect_right rect - HIT_RIGHT_WIDTH)%js = true
  /\ t ∈ fibLines /\ enabled t = true
  /\ exists yy : num,
       line_y priceToY bs t = Some yy /\ isFinite yy = true
       /\ Js.le (hit_dy e rect yy) HIT_TOL_Y = true
       /\ forall (l : FibLevel) (yl : num),
            l ∈ fibLines -> enabled l = true ->
            line_y priceToY bs l = Some yl -> isFinite yl = true ->
            Js.lt (hit_dy e rect yl) (hit_dy e rect yy) = false.
Proof.
  unfold hitTestLineByMouse. intros H.
  destruct (Js.ge (clientX e) (rect_right rect - HIT_RIGHT_WIDTH)%js);
    [|discriminate]. split; [done|]. simpl in H.
  assert (H0 : hit_inv priceToY bs e rect [] (None, PosInf)).
  { split; [done|]. intros l yy Hl. by apply elem_of_nil in Hl. }
  pose proof (hit_fold_inv priceToY bs e rect fibLines [] (None, PosInf) H0)
    as Hinv.
  rewrite app_nil_l in Hinv. destruct Hinv as [Hbest Hmin].
  destruct (Js.le (snd (foldl (hit_step priceToY bs e rect) (None, PosInf)
                          fibLines)) HIT_TOL_Y) eqn:Htol; [|discriminate].
  rewrite H in Hbest. destruct Hbest as (Ht & He & yy & Hy & Hf & Hd).
  split; [done|]. split; [done|]. exists yy.
  split; [done|]. split; [done|]. rewrite <- Hd. split; [done|].
  exact Hmin.
Qed.


(** X9 (hit test).  The hit test answers a level only for a pointer in
    the band of 64 pixels at the right edge; the level it answers is an
    enabled level of the list whose resolved price maps to a finite
    coordinate at most 12 pixels from the pointer, and no enabled level
    at a finite coordinate is strictly nearer to the pointer. *)
Theorem hit_test_sound (priceToY : num -> option num)
    (fibLines : list FibLevel) (bs : list Bar) (e : MouseEvent) (rect : Rect)
    (t : FibLevel) :
  hitTestLineByMouse priceToY fibLines bs e rect = Some t ->
  Js.ge (clientX e) (rect_right rect - HIT_RIGHT_WIDTH)%js = true
  /\ t ∈ fibLines /\ enabled t = true
  /\ exists yy : num,
       line_y priceToY bs t = Some yy /\ isFinite yy = true
       /\ Js.le (hit_dy e rect yy) HIT_TOL_Y = true
       /\ forall (l : FibLevel) (yl : num),
            l ∈ fibLines -> enabled l = true ->
            line_y priceToY bs l = Some yl -> isFinite yl = true ->
            Js.lt (hit_dy e rect yl) (hit_dy e rect yy) = false.
Proof.
  unfold hitTestLineByMouse. intros H.
  destruct (Js.ge (clientX e) (rect_right rect - HIT_RIGHT_WIDTH)%js);
    [|discriminate]. split; [done|]. simpl in H.
  assert (H0 : hit_inv priceToY bs e rect [] (None, PosInf)).
  { split; [done|]. intros l yy Hl. by apply elem_of_nil in Hl. }
  pose proof (hit_fold_inv priceToY bs e rect fibLines [] (None, PosInf) H0)
    as Hinv.
  rewrite app_nil_l in Hinv. destruct Hinv as [Hbest Hmin].
  destruct (Js.le (snd (foldl (hit_step priceToY bs e rect) (None, PosInf)
                          fibLines)) HIT_TOL_Y) eqn:Htol; [|discriminate].
  rewrite H in Hbest. destruct Hbest as (Ht & He & yy & Hy & Hf & Hd).
  split; [done|]. split; [done|]. exists yy.
  split; [done|]. split; [done|]. rewrite <- Hd. split; [done|].
  exact Hmin.
Qed.

Lemma hit_test_sound_witness :
  hitTestLineByMouse (fun p => Some p) [ex_level] [ex_bar 1 110]
    (mkMouseEvent (ofZ 990) (ofZ 105)) (mkRect (ofZ 1000) (ofZ 0))
  = Some ex_level
  /\ ex_level ∈ [ex_level].
Proof.
  split; [reflexivity|].
  apply (hit_test_sound (fun p => Some p) [ex_level] [ex_bar 1 110]
           (mkMouseEvent (ofZ 990) (ofZ 105)) (mkRect (ofZ 1000) (ofZ 0))
           ex_level eq_refl).
Defined.

(** X10 (hit test, misses).  Outside the band at the right edge, with no
    enabled level, or when the chart cannot map any price to a
    coordinate, the hit test answers nothing and a mouse-down leaves the
    drag state as it is. *)
Theorem hit_test_miss (priceToY : num -> option num)
    (fibLines : list FibLevel) (bs : list Bar) (e : MouseEvent) (rect : Rect)
    (dragging : Dragging) :
  (Js.ge (clientX e) (rect_right rect - HIT_RIGHT_WIDTH)%js = false
   \/ Forall (fun ln => enabled ln = false) fibLines
   \/ (forall p : num, priceToY p = None)) ->
  hitTestLineByMouse priceToY fibLines bs e rect = None
  /\ onMouseDown priceToY fibLines bs e rect dragging = dragging.
Proof.
  intros H.
  assert (Hn : hitTestLineByMouse priceToY fibLines bs e rect = None).
  { destruct (hitTestLineByMouse priceToY fibLines bs e rect) as [t|] eqn:Ht;
      [|done].
    apply hitTest_Some in Ht as (Hx & Hin & He & yy & Hy & _).
    destruct H as [H | [H | H]].
    - congruence.
    - rewrite (proj1 (Forall_forall _ _) H t Hin) in He. discriminate.
    - unfold line_y in Hy. destruct (resolve t bs); [|discriminate].
      rewrite H in Hy. discriminate. }
  split; [exact Hn|]. unfold onMouseDown. by rewrite Hn.
Qed.

Lemma hit_test_miss_witness :
  hitTestLineByMouse (fun p => Some p) [ex_level] [ex_bar 1 110]
    (mkMouseEvent (ofZ 500) (ofZ 109)) (mkRect (ofZ 1000) (ofZ 0)) = None.
Proof.
  apply (hit_test_miss (fun p => Some p) [ex_level] [ex_bar 1 110]
           (mkMouseEvent (ofZ 500) (ofZ 109)) (mkRect (ofZ 1000) (ofZ 0))
           (mkDragging false None)).
  left. reflexivity.
Defined.






(** X12 (a drag from mouse-down to mouse-up).  A mouse-down that hits a
    level starts a drag of the id of that level; the next pointer move
    that maps to a price makes exactly one update, which writes the
    snapped price into the levels of that id; the mouse-up ends the
    drag, and a pointer move after it makes no update. *)
Theorem drag_session (priceToY : num -> option num) (sym : string)
    (fibLines : list FibLevel) (bs : list Bar) (e : MouseEvent) (rect : Rect)
    (dragging : Dragging) (t : FibLevel) (p : num) (raw : option num) :
  hitTestLineByMouse priceToY fibLines bs e rect = Some t ->
  onMouseDown priceToY fibLines bs e rect dragging
  = mkDragging true (Some (id t))
  /\ onShieldMove sym (onMouseDown priceToY fibLines bs e rect dragging)
                  fibLines bs (Some p)
     = [(sym, map (fun l => if String.eqb (id l) (id t)
                            then with_price l
                                   (Some (sprice (nearestSnap (snaps bs) p)))
                            else l) fibLines)]
  /\ onShieldUp (onMouseDown priceToY fibLines bs e rect dragging)
     = mkDragging false None
  /\ onShieldMove sym
       (onShieldUp (onMouseDown priceToY fibLines bs e rect dragging))
       fibLines bs raw = [].
Proof.
  intros Hhit.
  assert (Hd : onMouseDown priceToY fibLines bs e rect dragging
               = mkDragging true (Some (id t))).
  { unfold onMouseDown. by rewrite Hhit. }
  rewrite Hd. split; [done|].
  apply hitTest_Some in Hhit as (_ & Hin & _).
  split; [|split; reflexivity].
  unfold onShieldMove. simpl.
  destruct (find_is_id (id t) fibLines) as [x ->]; [by exists t|].
  reflexivity.
Qed.

Lemma drag_session_witness :
  onShieldUp (onMouseDown (fun p => Some p) [ex_level] [ex_bar 1 110]
                (mkMouseEvent (ofZ 990) (ofZ 105)) (mkRect (ofZ 1000) (ofZ 0))
                (mkDragging false None))
  = mkDragging false None.
Proof.
  apply (drag_session (fun p => Some p) "X" [ex_level] [ex_bar 1 110]
           (mkMouseEvent (ofZ 990) (ofZ 105)) (mkRect (ofZ 1000) (ofZ 0))
           (mkDragging false None) ex_level (ofZ 100) None eq_refl).
Defined.

(** ** Snapping: ties and the empty buffer *)

Lemma lt_le_lt_fin (x y z : num) :
  isFinite x = true -> isFinite y = true -> isFinite z = true ->
  Js.lt x y = true -> Js.le y z = true -> Js.lt x z = true.
Proof.
  intros Hx Hy Hz H1 H2. fin_cases.
  apply lt_Fin in H1. apply le_Fin in H2. apply lt_Fin.
  by eapply Qclt_le_trans.
Qed.

Lemma nearest_first_step (p : num) (seen : list Snap)
    (acc : option Snap * num) (s : Snap) :
  isFinite p = true -> Forall finite_snap seen -> finite_snap s ->
  nearest_first_inv p seen acc ->
  nearest_first_inv p (seen ++ [s]) (nearest_step p acc s).
Proof.
  intros Hp Hseen Hs Hinv. unfold nearest_step. fold (dist p s).
  pose proof (dist_finite p s Hp Hs) as Hd.
  assert (Hfin : forall s', s' ∈ seen -> isFinite (dist p s') = true).
  { intros s' Hs'. apply dist_finite; [done|].
    by apply (proj1 (Forall_forall finite_snap seen) Hseen). }
  destruct acc as [[b|] dmin]; unfold nearest_first_inv in *; simpl in *.
  - destruct Hinv as (-> & pre & mid & Hseq & Hpre & Hmid).
    assert (Hb : isFinite (dist p b) = true).
    { apply Hfin. rewrite Hseq. apply elem_of_app. right. by left. }
    destruct (Js.lt (dist p s) (dist p b)) eqn:Hlt; simpl.
    + split; [done|]. exists seen, []. split; [done|]. split; [|constructor].
      apply Forall_forall. intros s' Hs'.
      rewrite Hseq in Hs'. apply elem_of_app in Hs' as [Hs' | Hs'].
      * apply (lt_trans_num _ (dist p b)); [done|].
        by apply (proj1 (Forall_forall _ _) Hpre).
      * apply elem_of_cons in Hs' as [-> | Hs']; [done|].
        apply (lt_le_lt_fin _ (dist p b)); try done.
        -- apply Hfin. rewrite Hseq. apply elem_of_app. right. by right.
        -- by apply (proj1 (Forall_forall _ _) Hmid).
    + split; [done|]. exists pre, (mid ++ [s]).
      split; [by rewrite Hseq, <- app_assoc|]. split; [done|].
      apply Forall_app. split; [done|]. constructor; [|constructor].
      by apply lt_false_le.
  - destruct Hinv as (-> & ->). rewrite lt_PosInf_fin by done. simpl.
    split; [done|]. exists [], []. by repeat split.
Qed.

Lemma nearest_first_fold (p : num) (cands : list Snap) :
  isFinite p = true -> Forall finite_snap cands ->
  forall (seen : list Snap) (acc : option Snap * num),
    Forall finite_snap seen -> nearest_first_inv p seen acc ->
    nearest_first_inv p (seen ++ cands) (foldl (nearest_step p) acc cands).
Proof.
  intros Hp Hc. induction Hc as [|s cands Hs Hc IH]; intros seen acc Hseen Hinv.
  - by rewrite app_nil_r.
  - simpl. rewrite (cons_middle s seen cands), app_assoc. apply IH.
    + apply Forall_app. split; [done|]. by constructor.
    + by apply nearest_first_step.
Qed.

(** X13 (ties go to the first candidate).  For a finite raw price and
    finite candidates, the candidate [nearestSnap] returns is the first
    one at the least distance: every candidate before it in the list is
    strictly farther, and none after it is nearer.  The ratio
    projections come first in the candidate list. *)
Theorem nearest_snap_first (cands : list Snap) (p : num) :
  cands <> [] -> isFinite p = true -> Forall finite_snap cands ->
  exists pre post : list Snap,
    cands = pre ++ nearestSnap cands p :: post
    /\ Forall (fun s => Js.lt (dist p (nearestSnap cands p)) (dist p s) = true)
              pre
    /\ Forall (fun s => Js.le (dist p (nearestSnap cands p)) (dist p s) = true)
              post.
Proof.
  intros Hne Hp Hc.
  pose proof (nearest_first_fold p cands Hp Hc [] (None, PosInf)
                (Forall_nil_2 _) (conj eq_refl eq_refl)) as Hinv.
  rewrite app_nil_l in Hinv. unfold nearestSnap, nearest_first_inv in *.
  destruct (fst (foldl (nearest_step p) (None, PosInf) cands)) as [b|].
  - destruct Hinv as (_ & pre & mid & Hseq & Hpre & Hmid). by exists pre, mid.
  - by destruct Hinv as [-> _].
Qed.

(** at equal distance from 105, the candidate 100 listed first wins over
    the candidate 110 *)
Lemma nearest_snap_first_witness :
  exists pre post : list Snap,
    [mkSnap (Some SnapLow) (ofZ 100); mkSnap (Some SnapHigh) (ofZ 110)]
    = pre ++ mkSnap (Some SnapLow) (ofZ 100) :: post.
Proof.
  destruct (nearest_snap_first
              [mkSnap (Some SnapLow) (ofZ 100); mkSnap (Some SnapHigh) (ofZ 110)]
              (ofZ 105) ltac:(discriminate) eq_refl
              ltac:(repeat constructor))
    as (pre & post & H & _).
  exists pre, post. exact H.
Defined.

Lemma snaps_nil (bs : list Bar) : snaps bs = [] <-> bs = [].
Proof.
  split; [|by intros ->].
  intros H. destruct bs as [|b bs]; [done|].
  by apply snaps_nonempty in H.
Qed.

(** X14 (drag on an empty buffer).  There are snap candidates exactly
    when the buffer holds a bar; without candidates [nearestSnap]
    answers the raw price itself, so a drag update on an empty buffer
    writes the raw price of the pointer into the dragged level. *)
Theorem drag_without_candidates :
  (forall bs : list Bar, snaps bs = [] <-> bs = [])
  /\ (forall p : num, nearestSnap [] p = mkSnap None p)
  /\ (forall (sym : string) (dragging : Dragging) (fibLines : list FibLevel)
             (p : num) (i : string),
      active dragging = true -> drag_id dragging = Some i ->
      (exists ln : FibLevel, ln ∈ fibLines /\ id ln = i) ->
      onShieldMove sym dragging fibLines [] (Some p)
      = [(sym, map (fun l => if String.eqb (id l) i
                             then with_price l (Some p) else l) fibLines)]).
Proof.
  split; [apply snaps_nil|]. split; [reflexivity|].
  intros sym dragging fibLines p i Ha Hi Hex.
  unfold onShieldMove. rewrite Ha, Hi. simpl negb. cbv iota.
  destruct (find_is_id i fibLines Hex) as [x ->]. reflexivity.
Qed.

Lemma drag_without_candidates_witness :
  onShieldMove "X" (mkDragging true (Some (id ex_level))) [ex_level] []
               (Some (ofZ 42))
  = [("X"%string, [with_price ex_level (Some (ofZ 42))])].
Proof.
  apply (proj2 (proj2 drag_without_candidates) "X"%string
           (mkDragging true (Some (id ex_level))) [ex_level] (ofZ 42)
           (id ex_level) eq_refl eq_refl).
  exists ex_level. split; [|reflexivity].
  apply list_elem_of_In. left. reflexivity.
Defined.

(** ** Dashboard: the symbol list *)

Lemma dedupe_step_inv (acc : gset string * list string) (s : string) :
  dedupe_inv acc ->
  dedupe_inv (dedupe_step acc s)
  /\ (forall x : string, x ∈ snd (dedupe_step acc s) <-> x ∈ snd acc \/ x = s)
  /\ exists tl : list string, snd (dedupe_step acc s) = snd acc ++ tl.
Proof.
  intros [Hnd Hseen]. unfold dedupe_step.
  destruct (decide (s ∈ fst acc)) as [Hin | Hnin].
  - split; [done|]. split.
    + intros x. split; [by left|]. intros [H | ->]; [done|]. by apply Hseen.
    + exists []. by rewrite app_nil_r.
  - split; [split|split]; simpl.
    + apply NoDup_app. split; [done|]. split.
      * intros x Hx Hx'. apply list_elem_of_singleton in Hx' as ->.
        apply Hnin. by apply Hseen.
      * apply NoDup_singleton.
    + intros x. rewrite elem_of_union, elem_of_singleton, elem_of_app,
        list_elem_of_singleton, Hseen. tauto.
    + intros x. rewrite elem_of_app, list_elem_of_singleton. tauto.
    + by exists [s].
Qed.

Lemma dedupe_fold (l : list string) :
  forall acc : gset string * list string,
    dedupe_inv acc ->
    dedupe_inv (foldl dedupe_step acc l)
    /\ (forall x : string,
          x ∈ snd (foldl dedupe_step acc l) <-> x ∈ snd acc \/ x ∈ l)
    /\ exists tl : list string, snd (foldl dedupe_step acc l) = snd acc ++ tl.
Proof.
  induction l as [|s l IH]; intros acc Hacc.
  - split; [done|]. split.
    + intros x. split; [by left|]. intros [H | H]; [done|].
      by apply elem_of_nil in H.
    + exists []. by rewrite app_nil_r.
  - simpl. destruct (dedupe_step_inv acc s Hacc) as (H1 & H2 & tl1 & H3).
    destruct (IH _ H1) as (H4 & H5 & tl2 & H6).
    split; [done|]. split.
    + intros x. rewrite H5, H2, elem_of_cons. tauto.
    + exists (tl1 ++ tl2). by rewrite H6, H3, app_assoc.
Qed.

Lemma dedupe_NoDup_id (l : list string) :
  forall acc : gset string * list string,
    dedupe_inv acc -> NoDup (snd acc ++ l) ->
    snd (foldl dedupe_step acc l) = snd acc ++ l.
Proof.
  induction l as [|s l IH]; intros acc Hacc Hnd.
  - simpl. by rewrite app_nil_r.
  - simpl.
    assert (Hs : s ∉ fst acc).
    { intros Hin. apply (proj2 Hacc) in Hin.
      apply NoDup_app in Hnd as (_ & Hd & _).
      apply (Hd s Hin). by left. }
    assert (Hstep : dedupe_step acc s = ({[s]} ∪ fst acc, snd acc ++ [s])).
    { unfold dedupe_step. by rewrite decide_False. }
    destruct (dedupe_step_inv acc s Hacc) as (H1 & _).
    rewrite Hstep in *. rewrite IH; [|done|].
    + simpl. by rewrite <- app_assoc.
    + simpl. by rewrite <- app_assoc.
Qed.

Lemma dedupe_inv_init : dedupe_inv (∅, []).
Proof.
  split; [constructor|]. intros s. simpl. split.
  - intros H. by apply elem_of_empty in H.
  - intros H. by apply elem_of_nil in H.
Qed.

Lemma ensureHasXRPUSD_elem (toUpperCase : string -> string)
    (lst : list string) (s : string) :
  s ∈ ensureHasXRPUSD toUpperCase lst <->
  s = "XRPUSD"%string \/ s ∈ map toUpperCase lst.
Proof.
  unfold ensureHasXRPUSD. destruct lst as [|a l].
  - simpl. rewrite list_elem_of_singleton. split; [by left|].
    intros [H | H]; [done|]. by apply elem_of_nil in H.
  - cbn [length Nat.eqb]. cbv zeta.
    set (upper := map toUpperCase (a :: l)).
    destruct (dedupe_fold
                (if bool_decide ("XRPUSD"%string ∈ upper) then upper
                 else "XRPUSD"%string :: upper) (∅, []) dedupe_inv_init)
      as (_ & H & _).
    rewrite H. simpl. case_bool_decide as Hx.
    + split.
      * intros [H' | H']; [by apply elem_of_nil in H' | by right].
      * intros [-> | H']; right; done.
    + rewrite elem_of_cons. split.
      * intros [H' | H']; [by apply elem_of_nil in H' | done].
      * intros H'. by right.
Qed.

Lemma ensureHasXRPUSD_NoDup (toUpperCase : string -> string)
    (lst : list string) :
  NoDup (ensureHasXRPUSD toUpperCase lst).
Proof.
  unfold ensureHasXRPUSD. destruct lst as [|a l].
  - apply NoDup_singleton.
  - cbn [length Nat.eqb]. cbv zeta.
    match goal with
    | |- NoDup (snd (foldl dedupe_step _ ?u)) =>
        destruct (dedupe_fold u (∅, []) dedupe_inv_init) as ([H _] & _)
    end.
    exact H.
Qed.

Lemma ensureHasXRPUSD_fixed (toUpperCase : string -> string)
    (lst : list string) :
  NoDup lst -> "XRPUSD"%string ∈ lst ->
  Forall (fun s => toUpperCase s = s) lst ->
  ensureHasXRPUSD toUpperCase lst = lst.
Proof.
  intros Hnd Hx Hup. unfold ensureHasXRPUSD.
  destruct lst as [|a l]; [by apply elem_of_nil in Hx|].
  cbn [length Nat.eqb]. cbv zeta.
  assert (Hmap : map toUpperCase (a :: l) = a :: l).
  { clear Hnd Hx. induction Hup as [|x xs Hx _ IH]; [done|].
    simpl. by rewrite Hx, IH. }
  rewrite Hmap. rewrite bool_decide_eq_true_2 by done.
  by rewrite (dedupe_NoDup_id (a :: l) (∅, []) dedupe_inv_init).
Qed.

(** X15 (the symbol list is normalised).  Whatever the input,
    [ensureHasXRPUSD] answers a list without duplicate that contains
    XRPUSD and otherwise exactly the upper-cased symbols of the input;
    a list that is already upper-cased, without duplicate and with
    XRPUSD is returned as it is, so the function is idempotent for an
    idempotent upper-casing that keeps XRPUSD. *)
Theorem ensureHasXRPUSD_normal (toUpperCase : string -> string)
    (lst : list string) :
  NoDup (ensureHasXRPUSD toUpperCase lst)
  /\ "XRPUSD"%string ∈ ensureHasXRPUSD toUpperCase lst
  /\ (forall s : string,
      s ∈ ensureHasXRPUSD toUpperCase lst <->
      s = "XRPUSD"%string \/ s ∈ map toUpperCase lst)
  /\ (NoDup lst -> "XRPUSD"%string ∈ lst ->
      Forall (fun s => toUpperCase s = s) lst ->
      ensureHasXRPUSD toUpperCase lst = lst)
  /\ ((forall s : string, toUpperCase (toUpperCase s) = toUpperCase s) ->
      toUpperCase "XRPUSD" = "XRPUSD"%string ->
      ensureHasXRPUSD toUpperCase (ensureHasXRPUSD toUpperCase lst)
      = ensureHasXRPUSD toUpperCase lst).
Proof.
  split; [apply ensureHasXRPUSD_NoDup|].
  split; [apply ensureHasXRPUSD_elem; by left|].
  split; [apply ensureHasXRPUSD_elem|].
  split; [apply ensureHasXRPUSD_fixed|].
  intros Hidem Hx. apply ensureHasXRPUSD_fixed.
  - apply ensureHasXRPUSD_NoDup.
  - apply ensureHasXRPUSD_elem. by left.
  - apply Forall_forall. intros s Hs.
    apply ensureHasXRPUSD_elem in Hs as [-> | Hs]; [done|].
    apply list_elem_of_fmap in Hs as (y & -> & _). apply Hidem.
Qed.

Lemma ensureHasXRPUSD_normal_witness :
  ensureHasXRPUSD (fun s => s) ["XRPUSD"%string; "BTCUSD"%string]
  = ["XRPUSD"%string; "BTCUSD"%string].
Proof.
  apply (proj1 (proj2 (proj2 (proj2
           (ensureHasXRPUSD_normal (fun s => s)
              ["XRPUSD"%string; "BTCUSD"%string]))))).
  - apply NoDup_cons. split.
    + intros H. apply list_elem_of_singleton in H. discriminate.
    + apply NoDup_singleton.
  - apply list_elem_of_In. left. reflexivity.
  - repeat constructor.
Defined.

(** X16 (adding and removing symbols).  Adding a symbol whose trimmed,
    upper-cased text is empty leaves the list alone; otherwise the list
    after the addition has no duplicate, contains XRPUSD and the
    upper-cased symbol.  Removing a symbol from a list without
    duplicate that contains XRPUSD never empties it, keeps it without
    duplicate and drops only that symbol, which stays only when it is
    XRPUSD alone; XRPUSD itself is removed when other symbols remain. *)
Theorem symbols_add_remove :
  (forall (trim toUpperCase : string -> string) (raw : string)
          (prev : list string),
      (toUpperCase (trim raw) = ""%string ->
       addSymbol trim toUpperCase raw prev = prev)
      /\ (toUpperCase (trim raw) <> ""%string ->
          NoDup (addSymbol trim toUpperCase raw prev)
          /\ "XRPUSD"%string ∈ addSymbol trim toUpperCase raw prev
          /\ toUpperCase (toUpperCase (trim raw))
             ∈ addSymbol trim toUpperCase raw prev))
  /\ (forall (sym : string) (prev : list string),
      NoDup prev -> "XRPUSD"%string ∈ prev ->
      removeSymbol sym prev <> []
      /\ NoDup (removeSymbol sym prev)
      /\ (forall s : string,
          s ∈ removeSymbol sym prev -> s ∈ prev)
      /\ (forall s : string,
          s ∈ prev -> s <> sym -> s ∈ removeSymbol sym prev)
      /\ (sym ∈ removeSymbol sym prev ->
          sym = "XRPUSD"%string /\ prev = ["XRPUSD"%string]))
  /\ removeSymbol "XRPUSD" ["XRPUSD"%string; "BTCUSD"%string]
     = ["BTCUSD"%string].
Proof.
  split_and!; [| |reflexivity].
  - intros trim toUpperCase raw prev. unfold addSymbol. cbv zeta. split.
    + intros ->. reflexivity.
    + intros Hne.
      replace (String.eqb (toUpperCase (trim raw)) "") with false
        by (symmetry; by apply String.eqb_neq).
      split; [apply ensureHasXRPUSD_NoDup|].
      split; [apply ensureHasXRPUSD_elem; by left|].
      apply ensureHasXRPUSD_elem. right. apply list_elem_of_fmap.
      exists (toUpperCase (trim raw)). split; [done|].
      case_bool_decide as Hin; [done|].
      apply elem_of_app. right. by apply list_elem_of_singleton.
  - intros sym prev Hnd Hx. unfold removeSymbol.
    destruct (String.eqb sym "XRPUSD" && Nat.eqb (length prev) 1) eqn:Hg.
    + apply andb_true_iff in Hg as [Hs Hl].
      apply String.eqb_eq in Hs as ->. apply Nat.eqb_eq in Hl.
      assert (Hp : prev = ["XRPUSD"%string]).
      { destruct prev as [|a [|b l]]; try discriminate.
        apply list_elem_of_singleton in Hx. by subst. }
      split_and!; try done. by rewrite Hp.
    + assert (Hdrop : sym ∉ filter (fun s => s <> sym) prev).
      { intros H. apply list_elem_of_filter in H as [H _]. done. }
      split_and!.
      * apply andb_false_iff in Hg as [Hs | Hl].
        -- apply String.eqb_neq in Hs. intros H.
           apply (filter_nil_not_elem_of _ _ "XRPUSD"%string) in H; [done|].
           congruence.
        -- apply Nat.eqb_neq in Hl. intros H.
           destruct prev as [|a [|b l]].
           ++ by apply elem_of_nil in Hx.
           ++ done.
           ++ destruct (decide (a = sym)) as [->|Ha].
              ** apply (filter_nil_not_elem_of _ _ b) in H.
                 --- apply H. right. left.
                 --- intros ->. apply NoDup_cons in Hnd as [Hn _].
                     apply Hn. left.
              ** apply (filter_nil_not_elem_of _ _ a) in H; [|done].
                 apply H. left.
      * by apply NoDup_filter.
      * intros s Hs. by apply list_elem_of_filter in Hs as [_ Hs].
      * intros s Hs Hne. by apply list_elem_of_filter.
      * intros H. done.
Qed.

Lemma symbols_add_remove_witness :
  removeSymbol "BTCUSD" ["XRPUSD"%string; "BTCUSD"%string] <> [].
Proof.
  apply (proj1 (proj2 symbols_add_remove) "BTCUSD"%string
           ["XRPUSD"%string; "BTCUSD"%string]).
  - apply NoDup_cons. split.
    + intros H. apply list_elem_of_singleton in H. discriminate.
    + apply NoDup_singleton.
  - apply list_elem_of_In. left. reflexivity.
Defined.

(** ** Dashboard: the level store *)

Lemma sync_fold (makeId : string -> num -> string) (symbols : list string) :
  forall (m : gmap string (list FibLevel)) (s : string),
    foldl (fun nx s => match nx !! s with
                       | Some _ => nx
                       | None => <[s := initFibLines makeId s]> nx
                       end) m symbols !! s
    = if decide (s ∈ symbols)
      then Some (default (initFibLines makeId s) (m !! s))
      else m !! s.
Proof.
  induction symbols as [|x xs IH]; intros m s.
  - cbn [foldl]. destruct (decide (s ∈ [])) as [H|_]; [|done].
    by apply elem_of_nil in H.
  - cbn [foldl]. rewrite IH.
    destruct (decide (s ∈ xs)) as [Hin | Hnin];
      destruct (decide (s ∈ x :: xs)) as [Hin' | Hnin'].
    + f_equal. destruct (m !! x) eqn:Hx; [done|].
      destruct (decide (x = s)) as [->|Hne].
      * by rewrite lookup_insert_eq, Hx.
      * by rewrite lookup_insert_ne.
    + exfalso. apply Hnin'. by right.
    + apply elem_of_cons in Hin' as [->|?]; [|done].
      destruct (m !! x) eqn:Hx; [by rewrite Hx|].
      by rewrite lookup_insert_eq.
    + assert (x <> s) by (intros ->; apply Hnin'; by left).
      destruct (m !! x); [done|]. by rewrite lookup_insert_ne.
Qed.

(** X17 (the level store follows the symbol list).  After the effect on
    the symbol list, the store has an entry exactly for the symbols of
    the list: a symbol that had levels keeps them, a new symbol gets the
    eleven default levels, and every other key is gone. *)
Theorem syncPerSymFib_lookup (makeId : string -> num -> string)
    (symbols : list string) (prev : gmap string (list FibLevel)) (s : string) :
  (s ∈ symbols ->
   syncPerSymFib makeId symbols prev !! s
   = Some (default (initFibLines makeId s) (prev !! s)))
  /\ (s ∉ symbols -> syncPerSymFib makeId symbols prev !! s = None)
  /\ (s ∈ dom (syncPerSymFib makeId symbols prev) <-> s ∈ symbols)
  /\ length (initFibLines makeId s) = 11%nat
  /\ Forall (fun ln => price ln = None /\ symbol ln = s /\ enabled ln = true
                       /\ alertEnabled ln = false)
            (initFibLines makeId s).
Proof.
  assert (H1 : s ∈ symbols ->
               syncPerSymFib makeId symbols prev !! s
               = Some (default (initFibLines makeId s) (prev !! s))).
  { intros Hin. unfold syncPerSymFib. apply map_lookup_filter_Some.
    split; [|done]. by rewrite sync_fold, decide_True. }
  assert (H2 : s ∉ symbols -> syncPerSymFib makeId symbols prev !! s = None).
  { intros Hnin. unfold syncPerSymFib. apply map_lookup_filter_None.
    right. intros x _. done. }
  split; [exact H1|]. split; [exact H2|]. split; [|split].
  - rewrite elem_of_dom. split.
    + intros [x Hx]. destruct (decide (s ∈ symbols)) as [|Hn]; [done|].
      rewrite (H2 Hn) in Hx. discriminate.
    + intros Hin. rewrite (H1 Hin). by eexists.
  - reflexivity.
  - unfold initFibLines. apply Forall_fmap. apply Forall_forall.
    intros r _. simpl. done.
Qed.

Lemma syncPerSymFib_lookup_witness :
  syncPerSymFib (fun s _ => s) ["XRPUSD"%string] ∅ !! "XRPUSD"%string
  = Some (initFibLines (fun s _ => s) "XRPUSD").
Proof.
  pose proof (proj1 (syncPerSymFib_lookup (fun s _ => s) ["XRPUSD"%string] ∅
                       "XRPUSD"%string)) as H.
  rewrite lookup_empty in H. apply H.
  apply list_elem_of_In. left. reflexivity.
Defined.

Lemma resolve_unpriced (ln : FibLevel) (bs : list Bar) :
  price ln = None -> isFinite (ratio ln) = true ->
  bs <> [] -> Forall finite_bar (window_look bs) ->
  exists rg lo : num,
    window_range bs = Some rg /\ window_lo bs = Some lo
    /\ resolve ln bs = Some (lo + ratio ln * rg)%js
    /\ isFinite (lo + ratio ln * rg)%js = true.
Proof.
  intros Hp Hr Hne Hfin.
  destruct (window_finite bs Hne Hfin) as (rg & lo & Hrg & Hlo).
  exists (Fin rg), (Fin lo). split; [done|]. split; [done|]. split.
  - unfold resolve, getLinePrice. by rewrite Hp, Hrg, Hlo.
  - by destruct (ratio ln).
Qed.

(** X18 (snapping the lines without alert).  [snapNonAlertToRange]
    touches the entry of its symbol only and keeps every line with an
    alert as it is; on a non-empty buffer of finite bars, the hydration
    that follows gives every line without alert and with a finite ratio
    the price [low + ratio * range] of the current window and the
    default colour, all its other fields unchanged. *)
Theorem snap_then_hydrate (sym : string)
    (prev : gmap string (list FibLevel)) (lines : list FibLevel)
    (bs : list Bar) :
  prev !! sym = Some lines ->
  bs <> [] -> Forall finite_bar (window_look bs) ->
  (forall s' : string, s' <> sym ->
     snapNonAlertToRange sym prev !! s' = prev !! s')
  /\ snapNonAlertToRange sym prev !! sym = Some (map snap_line lines)
  /\ length (filled (map snap_line lines) bs) = length lines
  /\ forall (k : nat) (ln : FibLevel), lines !! k = Some ln ->
       (alertEnabled ln = true -> map snap_line lines !! k = Some ln)
       /\ (alertEnabled ln = false -> isFinite (ratio ln) = true ->
           exists rg lo : num,
             window_range bs = Some rg /\ window_lo bs = Some lo
             /\ filled (map snap_line lines) bs !! k
                = Some (mkFibLevel (id ln) (symbol ln) (ratio ln)
                          (Some (lo + ratio ln * rg)%js) (enabled ln) false
                          (rsiThreshold ln) (rsiOp ln) DEFAULT_COLOR)).
Proof.
  intros Hsym Hne Hfin. unfold snapNonAlertToRange. rewrite Hsym. simpl.
  split_and!.
  - intros s' Hs'. by rewrite lookup_insert_ne.
  - by rewrite lookup_insert_eq.
  - unfold filled. by rewrite !length_map.
  - intros k ln Hln. split.
    + intros Ha. rewrite list_lookup_fmap, Hln. simpl.
      unfold snap_line. by rewrite Ha.
    + intros Ha Hr.
      assert (Hs : snap_line ln
                   = mkFibLevel (id ln) (symbol ln) (ratio ln) None (enabled ln)
                       false (rsiThreshold ln) (rsiOp ln) DEFAULT_COLOR).
      { unfold snap_line. by rewrite Ha. }
      destruct (resolve_unpriced (snap_line ln) bs)
        as (rg & lo & Hrg & Hlo & Hres & Hf); try done.
      { by rewrite Hs. } { by rewrite Hs. }
      exists rg, lo. split; [done|]. split; [done|].
      rewrite filled_lookup, list_lookup_fmap, Hln. simpl. f_equal.
      destruct (hydrate_line_cases (window_range bs) (window_lo bs)
                  (window_last bs) (snap_line ln)) as (_ & H2 & _).
      rewrite (H2 (lo + ratio (snap_line ln) * rg)%js); try done.
      * by rewrite Hs.
      * by rewrite Hs.
Qed.

Lemma snap_then_hydrate_witness :
  snapNonAlertToRange "X" {[ "X"%string := [ex_level] ]} !! "X"%string
  = Some (map snap_line [ex_level]).
Proof.
  apply (proj1 (proj2 (snap_then_hydrate "X" {[ "X"%string := [ex_level] ]}
                         [ex_level] [ex_bar 1 110]
                         (lookup_singleton_eq "X"%string [ex_level])
                         ltac:(discriminate) ltac:(repeat constructor)))).
Defined.

(** X19 (editing a field of a level).  [onFieldChange] touches the entry
    of its symbol only; in it the list keeps its length, every level of
    another id is unchanged, and a patched level keeps its id, symbol
    and ratio, and its price unless the patch is a price. *)
Theorem onFieldChange_frame (sym i : string) (patch : Patch)
    (prev : gmap string (list FibLevel)) :
  (forall s' : string, s' <> sym ->
     onFieldChange sym i patch prev !! s' = prev !! s')
  /\ exists next : list FibLevel,
       onFieldChange sym i patch prev !! sym = Some next
       /\ length next = length (default [] (prev !! sym))
       /\ forall (k : nat) (ln : FibLevel),
            default [] (prev !! sym) !! k = Some ln ->
            exists ln' : FibLevel,
              next !! k = Some ln'
              /\ id ln' = id ln /\ symbol ln' = symbol ln
              /\ ratio ln' = ratio ln
              /\ (id ln <> i -> ln' = ln)
              /\ ((forall p : option num, patch <> PPrice p) ->
                  price ln' = price ln)
              /\ (forall p : option num, patch = PPrice p -> id ln = i ->
                  ln' = with_price ln p).
Proof.
  unfold onFieldChange. split.
  - intros s' Hs'. by rewrite lookup_insert_ne.
  - eexists. split; [by rewrite lookup_insert_eq|].
    split; [by rewrite length_map|].
    intros k ln Hln. eexists. split.
    + rewrite list_lookup_fmap, Hln. reflexivity.
    + destruct (String.eqb (id ln) i) eqn:He.
      * apply String.eqb_eq in He.
        split; [by destruct patch|]. split; [by destruct patch|].
        split; [by destruct patch|]. split; [intros Hne; contradiction|].
        split.
        -- intros Hp. destruct patch; try reflexivity. by destruct (Hp p).
        -- intros p -> _. reflexivity.
      * apply String.eqb_neq in He.
        split; [done|]. split; [done|]. split; [done|]. split; [done|].
        split; [done|]. intros p _ Hi. contradiction.
Qed.

Lemma onFieldChange_frame_witness :
  onFieldChange "X" "a" (PEnabled false) {[ "Y"%string := [ex_level] ]}
    !! "Y"%string
  = ({[ "Y"%string := [ex_level] ]} : gmap string (list FibLevel))
      !! "Y"%string.
Proof.
  apply (proj1 (onFieldChange_frame "X" "a" (PEnabled false)
                  {[ "Y"%string := [ex_level] ]})).
  discriminate.
Defined.

(** X20 (the window is the last 120 bars).  Bars older than the last 120
    have no effect: the window, the resolved price of every level, the
    snap candidates and the hydration are those of the last 120 bars
    alone. *)
Theorem window_last_120 (old recent : list Bar) :
  (120 <= length recent)%nat ->
  window_look (old ++ recent) = window_look recent
  /\ window_hi (old ++ recent) = window_hi recent
  /\ window_lo (old ++ recent) = window_lo recent
  /\ window_range (old ++ recent) = window_range recent
  /\ (forall ln : FibLevel, resolve ln (old ++ recent) = resolve ln recent)
  /\ snaps (old ++ recent) = snaps recent
  /\ (forall (sym : string) (fibLines : list FibLevel),
      hydrate sym fibLines (old ++ recent) = hydrate sym fibLines recent).
Proof.
  intros Hlen.
  assert (Hlook : window_look (old ++ recent) = window_look recent).
  { unfold window_look. rewrite length_app.
    replace (length old + length recent - 120)%nat
      with (length old + (length recent - 120))%nat by lia.
    apply drop_app_add. }
  assert (Hhi : window_hi (old ++ recent) = window_hi recent).
  { unfold window_hi. by rewrite Hlook. }
  assert (Hlo : window_lo (old ++ recent) = window_lo recent).
  { unfold window_lo. by rewrite Hlook. }
  assert (Hrg : window_range (old ++ recent) = window_range recent).
  { unfold window_range. by rewrite Hhi, Hlo. }
  assert (Hlast : window_last (old ++ recent) = window_last recent).
  { unfold window_last. rewrite last_app.
    destruct (last recent) eqn:Hl; [done|].
    apply last_None in Hl. subst. simpl in Hlen. lia. }
  split_and!; try done.
  - intros ln. unfold resolve. by rewrite Hrg, Hlo, Hlast.
  - unfold snaps. by rewrite Hrg, Hlo, Hlook.
  - intros sym fibLines. unfold hydrate, filled.
    by rewrite Hrg, Hlo, Hlast.
Qed.

Lemma window_last_120_witness :
  window_look ([ex_bar 0 1] ++ replicate 120 (ex_bar 1 110))
  = window_look (replicate 120 (ex_bar 1 110)).
Proof.
  apply (proj1 (window_last_120 [ex_bar 0 1] (replicate 120 (ex_bar 1 110))
                  (eq_ind_r (fun n => (120 <= n)%nat) (le_n 120)
                            (length_replicate 120 (ex_bar 1 110))))).
Defined.

Lemma unprice_line_idem (ln : FibLevel) :
  unprice_line (unprice_line ln) = unprice_line ln.
Proof.
  unfold unprice_line. destruct (alertEnabled ln) eqn:Ha; [by rewrite Ha|].
  simpl. by rewrite Ha.
Qed.

Lemma autoSnap_fold (symbols : list string) :
  forall (m : gmap string (list FibLevel)) (s : string),
    autoSnap symbols m !! s
    = if decide (s ∈ symbols)
      then Some (map unprice_line (default [] (m !! s)))
      else m !! s.
Proof.
  unfold autoSnap. induction symbols as [|x xs IH]; intros m s.
  - cbn [foldl]. destruct (decide (s ∈ [])) as [H|_]; [|done].
    by apply elem_of_nil in H.
  - cbn [foldl]. rewrite IH.
    destruct (decide (s ∈ xs)) as [Hin | Hnin];
      destruct (decide (s ∈ x :: xs)) as [Hin' | Hnin'].
    + f_equal. destruct (decide (x = s)) as [->|Hne].
      * rewrite lookup_insert_eq. simpl. rewrite map_map.
        apply map_ext. intros ln. apply unprice_line_idem.
      * by rewrite lookup_insert_ne.
    + exfalso. apply Hnin'. by right.
    + apply elem_of_cons in Hin' as [->|?]; [|done].
      by rewrite lookup_insert_eq.
    + assert (x <> s) by (intros ->; apply Hnin'; by left).
      by rewrite lookup_insert_ne.
Qed.

(** X21 (timeframe change).  The effect on the timeframe rewrites the
    entry of every symbol of the list, as often as the symbol occurs,
    to the same result: every line with an alert is kept as it is and
    every other line loses its price and nothing else; the entries of
    other keys are untouched, and a symbol without entry gets the empty
    list. *)
Theorem autoSnap_lookup (symbols : list string)
    (prev : gmap string (list FibLevel)) (s : string) :
  (s ∈ symbols ->
   autoSnap symbols prev !! s
   = Some (map unprice_line (default [] (prev !! s))))
  /\ (s ∉ symbols -> autoSnap symbols prev !! s = prev !! s)
  /\ (forall ln : FibLevel,
      (alertEnabled ln = true -> unprice_line ln = ln)
      /\ (alertEnabled ln = false -> unprice_line ln = with_price ln None))
  /\ (s ∈ symbols -> prev !! s = None -> autoSnap symbols prev !! s = Some []).
Proof.
  split_and!.
  - intros Hin. by rewrite autoSnap_fold, decide_True.
  - intros Hnin. by rewrite autoSnap_fold, decide_False.
  - intros ln. unfold unprice_line. split; by intros ->.
  - intros Hin Hn. by rewrite autoSnap_fold, decide_True, Hn.
Qed.

Lemma autoSnap_lookup_witness :
  autoSnap ["X"%string; "X"%string] {[ "X"%string := [ex_level] ]}
    !! "X"%string
  = Some (map unprice_line
            (default [] (({[ "X"%string := [ex_level] ]}
                          : gmap string (list FibLevel)) !! "X"%string))).
Proof.
  apply (proj1 (autoSnap_lookup ["X"%string; "X"%string]
                  {[ "X"%string := [ex_level] ]} "X"%string)).
  apply list_elem_of_In. left. reflexivity.
Defined.

(** ** What the alert effect never does *)

Lemma omap_length_le {A B : Type} (f : A -> option B) (l : list A) :
  (length (omap f l) <= length l)%nat.
Proof.
  induction l as [|x l IH]; [done|].
  change (omap f (x :: l))
    with (match f x with Some y => y :: omap f l | None => omap f l end).
  destruct (f x); simpl; lia.
Qed.

Lemma alertEffect_elem (sym timeframe : string) (useHaRsi : bool)
    (fibLines : list FibLevel) (st : ChartState) (m : Message) :
  m ∈ alertEffect sym timeframe useHaRsi fibLines st ->
  bars st <> []
  /\ exists ln : FibLevel,
       ln ∈ fibLines
       /\ level_alert sym timeframe useHaRsi (lastPrice st)
            (if useHaRsi then haRsi st else rsi st) (prevClose (bars st)) ln
          = Some m.
Proof.
  intros Hm. destruct (bars st) as [|b bs] eqn:Hb.
  - unfold alertEffect in Hm. rewrite Hb in Hm. by apply elem_of_nil in Hm.
  - split; [done|]. rewrite alertEffect_omap in Hm by (by rewrite Hb).
    apply list_elem_of_omap in Hm as (ln & Hin & Hl). exists ln.
    by rewrite <- Hb.
Qed.

(** X22 (when the alert effect is silent).  One run of the alert effect
    emits at most one alert per level; it emits none while the buffer
    holds fewer than two bars, none without a value of the selected
    RSI, and none when no level is enabled with an alert and a price.
    Every alert it emits is for an enabled level of the list with its
    alert enabled, and carries the symbol and timeframe of the chart,
    the ratio and the price of that level and the selected RSI value,
    which passes the gate of the level. *)
Theorem alert_effect_sound (sym timeframe : string) (useHaRsi : bool)
    (fibLines : list FibLevel) (st : ChartState) :
  (length (alertEffect sym timeframe useHaRsi fibLines st)
   <= length fibLines)%nat
  /\ ((length (bars st) <= 1)%nat ->
      alertEffect sym timeframe useHaRsi fibLines st = [])
  /\ ((if useHaRsi then haRsi st else rsi st) = None ->
      alertEffect sym timeframe useHaRsi fibLines st = [])
  /\ (Forall (fun ln => enabled ln = false \/ alertEnabled ln = false
                        \/ price ln = None) fibLines ->
      alertEffect sym timeframe useHaRsi fibLines st = [])
  /\ forall m : Message,
       m ∈ alertEffect sym timeframe useHaRsi fibLines st ->
       m_symbol m = sym /\ m_timeframe m = timeframe /\ m_ha m = useHaRsi
       /\ exists (ln : FibLevel) (r : num),
            ln ∈ fibLines /\ enabled ln = true /\ alertEnabled ln = true
            /\ price ln = Some (m_price m) /\ m_ratio m = ratio ln
            /\ (if useHaRsi then haRsi st else rsi st) = Some r
            /\ m_rsi m = or_zero r
            /\ rsi_gate (rsiOp ln) r (rsiThreshold ln) = true.
Proof.
  assert (Hnone : (forall m, m ∈ alertEffect sym timeframe useHaRsi fibLines st
                             -> False) ->
                  alertEffect sym timeframe useHaRsi fibLines st = []).
  { intros H. destruct (alertEffect sym timeframe useHaRsi fibLines st)
      as [|m l]; [done|]. exfalso. apply (H m). left. }
  split_and!.
  - unfold alertEffect. destruct (_ || _); [simpl; lia|]. apply omap_length_le.
  - intros Hlen. apply Hnone. intros m Hm.
    apply alertEffect_elem in Hm as (_ & ln & _ & Hl).
    apply level_alert_Some in Hl
      as (_ & _ & lp & r & _ & _ & _ & Hc & _).
    apply crossed_iff in Hc as (pc & Hpc & _).
    unfold prevClose in Hpc.
    destruct (Nat.ltb 1 (length (bars st))) eqn:Hlt; [|discriminate].
    apply Nat.ltb_lt in Hlt. lia.
  - intros Hr. apply Hnone. intros m Hm.
    apply alertEffect_elem in Hm as (_ & ln & _ & Hl).
    apply level_alert_Some in Hl as (_ & _ & lp & r & _ & Hr' & _).
    congruence.
  - intros Hall. apply Hnone. intros m Hm.
    apply alertEffect_elem in Hm as (_ & ln & Hin & Hl).
    apply level_alert_Some in Hl as (He & Ha & lp & r & Hp & _).
    destruct (proj1 (Forall_forall _ _) Hall ln Hin) as [H | [H | H]];
      congruence.
  - intros m Hm.
    apply alertEffect_elem in Hm as (_ & ln & Hin & Hl).
    apply level_alert_Some in Hl
      as (He & Ha & lp & r & Hp & Hr & _ & _ & Hg & ->).
    simpl. split; [done|]. split; [done|]. split; [done|].
    by exists ln, r.
Qed.

Lemma alert_effect_sound_witness :
  alertEffect "X" "1m" false [ex_level]
    (mkChartState [ex_bar 1 110] (Some (ofZ 110)) (Some (ofZ 65))
                  (Some (ofZ 65))) = [].
Proof.
  apply (proj1 (proj2 (alert_effect_sound "X" "1m" false [ex_level]
                         (mkChartState [ex_bar 1 110] (Some (ofZ 110))
                            (Some (ofZ 65)) (Some (ofZ 65)))))).
  apply le_n.
Defined.
